(** * compute_iasp91_locsat_table.py: travel-time tables for LOCSAT

    A shallow embedding of [src/locsat/tables/compute_iasp91_locsat_table.py]
    and the properties of the table file it writes.

    - [F64]: IEEE-754 binary64 arithmetic (numpy's [float64]), on the
      [spec_float] operations of the standard library;
    - [Grid]: the vocabulary of the proofs about rounding;
    - [Py]: the pieces of Python the script relies on ([str] of an [int],
      the [%W.Pf] format of a float, text files);
    - [Locsat]: the script itself;
    - then the lemmas: rounding and division in binary64, the rounded
      product, sum and square root, sign and order of the travel time,
      texts, the writing loops, the properties of the table file, the rows
      of samples and the runs of the generator. *)

From Stdlib Require Import ZArith String Ascii List Lia Bool DecimalString.
From Stdlib Require Import SpecFloat.
From stdpp Require Import gmap strings.
Import ListNotations.

Local Open Scope Z_scope.

(** ** IEEE-754 binary64 *)

Module F64.

Definition prec : Z := 53.
Definition emax : Z := 1024.

(** A [float64] is a [spec_float]; the values numpy can hold are the
    [valid] ones (canonical mantissa and exponent within range). *)
Definition float64 : Type := spec_float.

Definition valid (x : float64) : bool := valid_binary prec emax x.

Definition add : float64 -> float64 -> float64 := SFadd prec emax.
Definition mul : float64 -> float64 -> float64 := SFmul prec emax.
Definition div : float64 -> float64 -> float64 := SFdiv prec emax.
Definition sqrt : float64 -> float64 := SFsqrt prec emax.

Definition ltb : float64 -> float64 -> bool := SFltb.
Definition leb : float64 -> float64 -> bool := SFleb.

Definition zero : float64 := S754_zero false.
Definition neg_zero : float64 := S754_zero true.
Definition neg_infinity : float64 := S754_infinity true.
Definition nan : float64 := S754_nan.

(** [of_Z n] is the literal [n.0] for a small integer [n]. *)
Definition of_Z (n : Z) : float64 := binary_normalize prec emax n 0 false.

Definition is_nan (x : float64) : bool :=
  match x with S754_nan => true | _ => false end.


Definition is_finite (x : float64) : bool :=
  match x with S754_zero _ | S754_finite _ _ _ => true | _ => false end.

(** Every element is at most every later one (and itself: no NaN). *)
Fixpoint ascending (xs : list float64) : bool :=
  match xs with
  | [] => true
  | x :: xs' => forallb (leb x) xs && ascending xs'
  end.

(** [-x] *)
Definition opp : float64 -> float64 := SFopp.

(** Sign bit clear and not NaN: [+0.0], a positive finite number or
    [+inf]. *)
Definition is_pos (x : float64) : bool :=
  match x with
  | S754_zero false | S754_finite false _ _ | S754_infinity false => true
  | _ => false
  end.

(** The value of a positive finite float, scaled by [2^K]; 0 for the
    others. *)
Definition scaled (x : float64) (K : Z) : Z :=
  match x with
  | S754_finite false m e => Zpos m * 2 ^ (e + K)
  | _ => 0
  end.

(** The scale from which on [scaled x] is an integer. *)
Definition low (x : float64) : Z :=
  match x with
  | S754_finite _ _ e => - e
  | _ => 0
  end.

End F64.

Abbreviation float64 := F64.float64.

(** ** Positions on a grid

    The vocabulary of the rounding proofs: where a non-negative rational
    [A / B] lies among the integers, as [binary_round_aux] tracks it with a
    mantissa and a [location]. *)

Module Grid.

(** The location of a remainder [r] in [[0, B)]: exact, or below, at or
    above the middle. *)
Definition loc_of (r B : Z) : location :=
  if r =? 0 then loc_Exact else loc_Inexact (2 * r ?= B).

(** [A / B] lies in [[m, m + 1)], at location [l] there. *)
Definition located (A B m : Z) (l : location) : Prop :=
  m * B <= A < (m + 1) * B /\ l = loc_of (A - m * B) B.

(** The record [mrs] is the mantissa [m0] shifted right by [k] places, and
    still locates [A], on the grid [2^k] times coarser. *)
Definition shifted (A B m0 k : Z) (mrs : shr_record) : Prop :=
  located A (B * 2 ^ k) (shr_m mrs) (loc_of_shr_record mrs)
  /\ 0 <= shr_m mrs
  /\ shr_m mrs * 2 ^ k <= m0 < (shr_m mrs + 1) * 2 ^ k.

(** What [binary_round_aux] builds from a mantissa [m] at exponent [E]. *)
Definition finish (prec emax : Z) (sx : bool) (m E : Z) : spec_float :=
  match m with
  | Z0 => S754_zero sx
  | Zpos p => if E <=? emax - prec then S754_finite sx p E else S754_infinity sx
  | Zneg _ => S754_nan
  end.

(** The float of the mantissa [m] rounded at exponent [E]: [m] itself, or
    one exponent up when the rounding carried into bit [prec]. *)
Definition rounded (prec emax : Z) (sx : bool) (m E : Z) : spec_float :=
  if m <? 2 ^ prec then finish prec emax sx m E
  else finish prec emax sx (2 ^ (prec - 1)) (E + 1).

(** [x] is the rounding to nearest even of the non-negative value
    [T K / (D * 2^K)], the same for every [K] large enough: [m] and [lE]
    are its mantissa and location on the grid of its exponent [E]. *)
Definition rounds_to (prec emax D : Z) (T : Z -> Z) (x : spec_float) : Prop :=
  exists (E m : Z) (lE : location) (K0 : Z),
    SpecFloat.emin prec emax <= E
    /\ 0 <= m < 2 ^ prec
    /\ (E = SpecFloat.emin prec emax \/ 2 ^ (prec - 1) <= m)
    /\ (forall K : Z, K0 <= K ->
          0 <= E + K /\ located (T K) (D * 2 ^ (E + K)) m lE)
    /\ x = rounded prec emax false (round_nearest_even m lE) E.

(** The square root of [N] lies in [[m * G, (m + 1) * G)], at location
    [l] there. *)
Definition located_sqrt (N G m : Z) (l : location) : Prop :=
  m * m * (G * G) <= N < (m + 1) * (m + 1) * (G * G)
  /\ l = (if N =? m * m * (G * G) then loc_Exact
          else loc_Inexact (4 * N ?= (2 * m + 1) * (2 * m + 1) * (G * G))).

(** A rational in the place of a root: [4 * q + quarter l] over [4] lies
    where [l] says, between [q] and [q + 1]. *)
Definition quarter (l : location) : Z :=
  match l with
  | loc_Exact => 0
  | loc_Inexact Lt => 1
  | loc_Inexact Eq => 2
  | loc_Inexact Gt => 3
  end.

(** [x] is the rounding to nearest even of the square root of
    [R K / 2^(2K)], the same for every [K] large enough. *)
Definition sqrt_rounds_to (prec emax : Z) (R : Z -> Z) (x : spec_float) : Prop :=
  exists (E m : Z) (lE : location) (K0 : Z),
    SpecFloat.emin prec emax <= E
    /\ 0 <= m < 2 ^ prec
    /\ (E = SpecFloat.emin prec emax \/ 2 ^ (prec - 1) <= m)
    /\ (forall K : Z, K0 <= K ->
          0 <= E + K /\ located_sqrt (R K) (2 ^ (E + K)) m lE)
    /\ x = rounded prec emax false (round_nearest_even m lE) E.

End Grid.

(** ** Python built-ins used by the script *)

Module Py.

Local Open Scope string_scope.

Definition LF : string := String (ascii_of_nat 10) EmptyString.

(** [str(n)] for a non-negative [int]. *)
Definition str_int (n : Z) : string := NilZero.string_of_uint (N.to_uint (Z.to_N n)).

Fixpoint repeat_char (c : ascii) (n : nat) : string :=
  match n with
  | O => EmptyString
  | S n' => String c (repeat_char c n')
  end.

(** Right-justify in a field of [width] characters (the default alignment
    of numbers); longer texts are left as they are. *)
Definition rjust (width : nat) (s : string) : string :=
  repeat_char " "%char (width - String.length s)%nat ++ s.

Definition zfill (width : nat) (s : string) : string :=
  repeat_char "0"%char (width - String.length s)%nat ++ s.

(** Round the rational [num / den] ([0 <= num], [0 < den]) to the nearest
    integer, ties to even. *)
Definition round_half_even (num den : Z) : Z :=
  let q := (num / den)%Z in
  let r := (num mod den)%Z in
  match (2 * r ?= den)%Z with
  | Lt => q
  | Gt => (q + 1)%Z
  | Eq => if Z.even q then q else (q + 1)%Z
  end.

(** The digits of [|x| = m * 2^e] with [p] decimals, correctly rounded. *)
Definition fixed_digits (p : nat) (m : positive) (e : Z) : string :=
  let scale := (10 ^ Z.of_nat p)%Z in
  let n :=
    if (0 <=? e)%Z then (Z.pos m * 2 ^ e * scale)%Z
    else round_half_even (Z.pos m * scale) (2 ^ (- e)) in
  let int_part := str_int (n / scale) in
  match p with
  | O => int_part
  | _ => int_part ++ "." ++ zfill p (str_int (n mod scale))
  end.

Definition sign_str (s : bool) : string := if s then "-" else "".

(** [format(x, "W.Pf")], as in the f-string [{x:W.Pf}]. *)
Definition format_f (width p : nat) (x : float64) : string :=
  rjust width
    match x with
    | S754_nan => "nan"
    | S754_infinity s => sign_str s ++ "inf"
    | S754_zero s =>
        sign_str s ++
        match p with O => "0" | _ => "0." ++ repeat_char "0"%char p end
    | S754_finite s m e => sign_str s ++ fixed_digits p m e
    end.

(** *** Views of a text *)

(** The concatenation of the texts of [ls]. *)
Fixpoint join (ls : list string) : string :=
  match ls with
  | [] => ""
  | l :: ls' => l ++ join ls'
  end.

(** The text whose lines are [ls], each ended by a line feed. *)
Fixpoint unlines (ls : list string) : string :=
  match ls with
  | [] => ""
  | l :: ls' => l ++ LF ++ unlines ls'
  end.

Definition is_LF (c : ascii) : bool := Ascii.eqb c (ascii_of_nat 10).

(** Does [s] hold a line feed? *)
Fixpoint has_LF (s : string) : bool :=
  match s with
  | EmptyString => false
  | String c s' => is_LF c || has_LF s'
  end.


(** *** Text files

    The file system maps a path to the content of the file there.  A file
    object opened for writing is the text written so far. *)

Definition file : Type := string.

Definition open_w : file := "".

Definition write (f : file) (s : string) : file := f ++ s.

(** Leaving [with open(name, "w") as f] stores what was written under
    [name], replacing what was there.  Opening is taken to succeed. *)
Definition close (fs : gmap string string) (name : string) (f : file)
  : gmap string string :=
  <[name := f]> fs.

End Py.

(** ** The script *)

Module Locsat.

Import F64 Py.
Local Open Scope string_scope.

(** *** Constants *)

(** [math.pi = 0x1.921fb54442d18p+1] *)
Definition pi : float64 := S754_finite false 7074237752028440 (-51).

(** The float literals [0.1] and [0.5] of the source; the others are
    integers. *)
Definition lit_0_1 : float64 := S754_finite false 7205759403792794 (-56).
Definition lit_0_5 : float64 := S754_finite false 4503599627370496 (-53).

(** The group speed [0.34] of the example in the docstring of the script,
    [0x1.5c28f5c28f5c3p-2]. *)
Definition example_speed : float64 := S754_finite false 6124895493223875 (-54).

(** [z_samples = np.array([0.0])] *)
Definition z_samples : list float64 := [zero].

(** [d_samples = np.array([0.0, 0.1, 0.5, 1.0, 5.0, 10.0, 15.0, 20.0, 25.0, 30.0])] *)
Definition d_samples : list float64 :=
  [zero; lit_0_1; lit_0_5; of_Z 1; of_Z 5; of_Z 10; of_Z 15; of_Z 20;
   of_Z 25; of_Z 30].

(** Modelled from the spec: [obspy.geodetics.degrees2kilometers], which the
    script imports, is [km = degrees * (pi/180) * R_earth] with
    [R_earth = 6371.0], evaluated in binary64. *)
Definition degrees2kilometers (degrees : float64) : float64 :=
  mul (mul degrees (div pi (of_Z 180))) (of_Z 6371).

(** [r_samples = degrees2kilometers(d_samples)], element by element. *)
Definition r_samples : list float64 := map degrees2kilometers d_samples.

(** *** Travel time *)

(** [x**2] on a [float64]: the square, correctly rounded. *)
Definition square (x : float64) : float64 := mul x x.

(** [np.sqrt(z**2 + r**2) / group_speed] *)
Definition travel_time (z r group_speed : float64) : float64 :=
  div (sqrt (add (square z) (square r))) group_speed.

(** The table of the spec, indexed by depth sample then distance sample:
    the value the inner loop computes at each pair. *)
Definition travel_time_table (zs rs : list float64) (group_speed : float64)
  : list (list float64) :=
  map (fun z => map (fun r => travel_time z r group_speed) rs) zs.

(** The cell of a table at depth index [i] and distance index [j]. *)
Definition cell (table : list (list float64)) (i j : nat) : option float64 :=
  match table !! i with
  | Some row => row !! j
  | None => None
  end.

(** The lines of one block of the file: its header line, then a line per
    distance sample. *)
Definition block_lines (group_speed : float64) (rs : list float64)
    (z : float64) : list string :=
  ("# Travel-time/amplitude for z = " ++ format_f 8 2 z)
    :: map (fun r => format_f 12 3 (travel_time z r group_speed)) rs.

(** The first line of the file for [phase], as the layout has it. *)
Definition header_line (phase : string) : string :=
  "n # " ++ phase ++ " travel-time tables".

(** The lines of the file before the first block, for the sample arrays
    of the script. *)
Definition preamble_lines (phase : string) : list string :=
  [ header_line phase;
    "1 # number of depth samples";
    "    0.00";
    "10 # number of distance samples";
    "    0.00    0.10    0.50    1.00    5.00   10.00   15.00   20.00   25.00   30.00" ].

(** *** Writing the table *)

(** [[
    for i, x in enumerate(xs, 1):
        f.write(f"{x:8.2f}")
        if i % 10 == 0 or i == len(xs):
            f.write("\n")
    ]]
    [n] is [len(xs)] of the whole sequence and [i] the running index. *)
Fixpoint write_samples (n i : nat) (xs : list float64) (f : file) : file :=
  match xs with
  | [] => f
  | x :: xs' =>
      let f := write f (format_f 8 2 x) in
      let f :=
        if (Nat.eqb (Nat.modulo i 10) 0 || Nat.eqb i n)%bool then write f LF else f in
      write_samples n (S i) xs' f
  end.

(** [[
    for r in r_samples:
        travel_time = np.sqrt(z**2 + r**2) / group_speed
        f.write(f"{travel_time:12.3f}\n")
    ]] *)
Fixpoint write_travel_times (z group_speed : float64) (rs : list float64)
    (f : file) : file :=
  match rs with
  | [] => f
  | r :: rs' =>
      let f := write f (format_f 12 3 (travel_time z r group_speed) ++ LF) in
      write_travel_times z group_speed rs' f
  end.

(** [[
    for i, z in enumerate(z_samples):
        f.write(f"# Travel-time/amplitude for z = {z:8.2f}\n")
        for r in r_samples: ...
    ]] *)
Fixpoint write_blocks (group_speed : float64) (zs rs : list float64)
    (f : file) : file :=
  match zs with
  | [] => f
  | z :: zs' =>
      let f :=
        write f ("# Travel-time/amplitude for z = " ++ format_f 8 2 z ++ LF) in
      let f := write_travel_times z group_speed rs f in
      write_blocks group_speed zs' rs f
  end.

(** The body of the [with open(file_name, "w") as f] block, over the three
    module-level sample arrays. *)
Definition write_table (zs ds rs : list float64) (phase : string)
    (group_speed : float64) (f : file) : file :=
  let f := write f ("n # " ++ phase ++ " travel-time tables" ++ LF) in
  let f := write f (str_int (Z.of_nat (length zs)) ++ " # number of depth samples" ++ LF) in
  let f := write_samples (length zs) 1 zs f in
  let f := write f (str_int (Z.of_nat (length ds)) ++ " # number of distance samples" ++ LF) in
  let f := write_samples (length ds) 1 ds f in
  write_blocks group_speed zs rs f.

(** What the process leaves behind: the files and the lines printed on
    standard output. *)
Record world : Type := World {
  files : gmap string string;
  stdout : list string;
}.

Definition print (out : list string) (line : string) : list string :=
  out ++ [line].

Section Generate.

(** [str(x)] of a Python [float] (its shortest repr), used only by the
    verbose messages. *)
Variable float_str : float64 -> string.

Definition file_name (phase : string) : string := "iasp91." ++ phase.

(** The text [generate_travel_time_table] writes to the file. *)
Definition table_text (phase : string) (group_speed : float64) : string :=
  write_table z_samples d_samples r_samples phase group_speed open_w.

Definition generate_travel_time_table (phase : string)
    (group_speed : float64) (verbose : bool) (w : world) : world :=
  let out := stdout w in
  let out :=
    if verbose then
      let out := print out ("Generating travel-time table for phase: " ++ phase) in
      let out := print out ("Output file: " ++ file_name phase) in
      print out ("Group speed: " ++ float_str group_speed)
    else out in
  let fs := close (files w) (file_name phase) (table_text phase group_speed) in
  let out :=
    if verbose then
      print out ("Travel-time table successfully written to " ++ file_name phase)
    else out in
  World fs out.

End Generate.

(** *** Views of the file

    The vocabulary in which the layout of the file is stated. *)

(** [xs] cut into rows of ten, in order; the last row is shorter when the
    length is no multiple of ten.  [fuel] bounds the number of rows. *)
Fixpoint chunks (fuel : nat) (xs : list float64) : list (list float64) :=
  match fuel, xs with
  | O, _ | _, [] => []
  | S fuel', _ => take 10 xs :: chunks fuel' (drop 10 xs)
  end.

Definition rows (xs : list float64) : list (list float64) :=
  chunks (length xs) xs.

(** The samples of one row, each in [%8.2f], with nothing in between. *)
Definition sample_line (row : list float64) : string :=
  join (map (format_f 8 2) row).

(** The lines of a table file for the sample arrays [zs], [ds] and [rs]. *)
Definition table_lines (zs ds rs : list float64) (phase : string)
    (group_speed : float64) : list string :=
  app [ header_line phase;
        str_int (Z.of_nat (length zs)) ++ " # number of depth samples" ]
    (app (map sample_line (rows zs))
       (app [ str_int (Z.of_nat (length ds)) ++ " # number of distance samples" ]
          (app (map sample_line (rows ds))
             (concat (map (block_lines group_speed rs) zs))))).

End Locsat.

(** ** Rounding in [binary_round_aux], and the order of quotients *)

Section Shifts.

Import Grid.

Lemma digits2_pos_spec (p : positive) :
  2 ^ (Zpos (digits2_pos p) - 1) <= Zpos p < 2 ^ Zpos (digits2_pos p).
Proof.
  induction p as [p IH|p IH|]; cbn [digits2_pos].
  - rewrite Pos2Z.inj_succ, Z.pow_succ_r by lia.
    replace (Z.succ (Z.pos (digits2_pos p)) - 1) with (Z.succ (Z.pos (digits2_pos p) - 1)) by lia.
    rewrite Z.pow_succ_r by lia. lia.
  - rewrite Pos2Z.inj_succ, Z.pow_succ_r by lia.
    replace (Z.succ (Z.pos (digits2_pos p)) - 1) with (Z.succ (Z.pos (digits2_pos p) - 1)) by lia.
    rewrite Z.pow_succ_r by lia. lia.
  - simpl. lia.
Qed.

Lemma Zdigits2_nonneg (m : Z) : 0 <= Zdigits2 m.
Proof. destruct m; simpl; lia. Qed.

Lemma Zdigits2_spec (m : Z) :
  0 < m -> 2 ^ (Zdigits2 m - 1) <= m < 2 ^ Zdigits2 m.
Proof. destruct m; try lia. intros _. apply digits2_pos_spec. Qed.

Lemma record_loc_roundtrip (m : Z) (l : location) :
  shr_m (shr_record_of_loc m l) = m /\
  loc_of_shr_record (shr_record_of_loc m l) = l.
Proof. destruct l as [|[| |]]; split; reflexivity. Qed.

Ltac loc_cases :=
  unfold located, loc_of in *;
  repeat match goal with
  | H : _ /\ _ |- _ => destruct H
  | H : context [?a =? 0] |- _ => destruct (Z.eqb_spec a 0)
  | H : context [?a ?= ?b] |- _ => destruct (Z.compare_spec a b)
  | H : loc_Inexact _ = loc_Inexact _ |- _ => inversion H; clear H
  | H : loc_Exact = loc_Inexact _ |- _ => discriminate H
  | H : loc_Inexact _ = loc_Exact |- _ => discriminate H
  end.

Lemma shr_1_located (A B : Z) (mrs : shr_record) :
  0 < B -> 0 <= shr_m mrs ->
  located A B (shr_m mrs) (loc_of_shr_record mrs) ->
  located A (2 * B) (shr_m (shr_1 mrs)) (loc_of_shr_record (shr_1 mrs))
  /\ 0 <= shr_m (shr_1 mrs)
  /\ 2 * shr_m (shr_1 mrs) <= shr_m mrs <= 2 * shr_m (shr_1 mrs) + 1.
Proof.
  intros HB Hm H.
  destruct mrs as [m r s]. cbn [shr_m] in *.
  destruct m as [|[p|p|]|p]; try lia;
    destruct r, s; cbn [shr_1 shr_m loc_of_shr_record orb] in *;
    loc_cases; try discriminate; try lia;
    (split; [split; [nia|]|lia]).
  all: unfold loc_of.
  all: repeat match goal with
       | |- context [?a =? 0] => destruct (Z.eqb_spec a 0)
       | |- context [?a ?= ?b] => destruct (Z.compare_spec a b)
       end; try reflexivity; try nia.
Qed.

Lemma iter_pos_invariant {T : Type} (f : T -> T) (P : Z -> T -> Prop) :
  (forall k x, 0 <= k -> P k x -> P (k + 1) (f x)) ->
  forall (p : positive) (k : Z) (x : T),
    0 <= k -> P k x -> P (k + Zpos p) (SpecFloat.iter_pos f p x).
Proof.
  intros Hstep. induction p as [p IH|p IH|]; intros k x Hk HP; cbn [SpecFloat.iter_pos].
  - replace (k + Z.pos p~1) with (k + 1 + Z.pos p + Z.pos p) by lia.
    apply IH; [lia|]. apply IH; [lia|]. now apply Hstep.
  - replace (k + Z.pos p~0) with (k + Z.pos p + Z.pos p) by lia.
    apply IH; [lia|]. now apply IH.
  - now apply Hstep.
Qed.

Lemma shifted_step (A B m0 k : Z) (mrs : shr_record) :
  0 < B -> 0 <= k ->
  shifted A B m0 k mrs -> shifted A B m0 (k + 1) (shr_1 mrs).
Proof.
  intros HB Hk (Hloc & Hm & Hb).
  assert (Hp : 0 < 2 ^ k) by (apply Z.pow_pos_nonneg; lia).
  destruct (shr_1_located A (B * 2 ^ k) mrs) as (Hloc' & Hm' & Hh);
    [nia|exact Hm|exact Hloc|].
  unfold shifted. rewrite Z.pow_add_r, Z.pow_1_r by lia.
  replace (B * (2 ^ k * 2)) with (2 * (B * 2 ^ k)) by lia.
  split; [exact Hloc'|]. split; [exact Hm'|]. nia.
Qed.

Lemma shr_shifted (A B : Z) (mrs : shr_record) (e n : Z) :
  0 < B -> 0 <= shr_m mrs ->
  located A B (shr_m mrs) (loc_of_shr_record mrs) ->
  snd (shr mrs e n) = e + Z.max 0 n
  /\ shifted A B (shr_m mrs) (Z.max 0 n) (fst (shr mrs e n)).
Proof.
  intros HB Hm Hloc.
  assert (H0 : shifted A B (shr_m mrs) 0 mrs).
  { unfold shifted. rewrite Z.pow_0_r, Z.mul_1_r. split; [exact Hloc|]. lia. }
  destruct n as [|p|p]; cbn [shr fst snd].
  - split; [lia|exact H0].
  - split; [lia|]. replace (Z.max 0 (Z.pos p)) with (0 + Z.pos p) by lia.
    apply (iter_pos_invariant shr_1 (shifted A B (shr_m mrs))); [|lia|exact H0].
    intros k x Hk. now apply shifted_step.
  - split; [lia|exact H0].
Qed.

End Shifts.

Section Rounding.

Import Grid.

Variables prec emax : Z.
Hypothesis Hprec : 0 < prec.

Local Abbreviation emin := (SpecFloat.emin prec emax).
Local Abbreviation fexp := (SpecFloat.fexp prec emax).
Local Abbreviation finish := (Grid.finish prec emax).
Local Abbreviation rounded := (Grid.rounded prec emax).

Lemma fexp_ge_emin (k : Z) : emin <= fexp k.
Proof. unfold SpecFloat.fexp. lia. Qed.

Lemma fexp_mono (j k : Z) : j <= k -> fexp j <= fexp k.
Proof. unfold SpecFloat.fexp. lia. Qed.

(** The first shift of [binary_round_aux] brings the mantissa to the
    exponent of the format. *)
Lemma shr_fexp_located (A B q e : Z) (l : location) :
  0 < B -> 0 <= q -> located A B q l ->
  e <= fexp (Zdigits2 q + e) ->
  let E := fexp (Zdigits2 q + e) in
  let mrs := fst (shr_fexp prec emax q e l) in
  snd (shr_fexp prec emax q e l) = E
  /\ located A (B * 2 ^ (E - e)) (shr_m mrs) (loc_of_shr_record mrs)
  /\ 0 <= shr_m mrs < 2 ^ prec
  /\ (E = emin \/ 2 ^ (prec - 1) <= shr_m mrs).
Proof.
  intros HB Hq Hloc He E mrs.
  destruct (record_loc_roundtrip q l) as [Hm Hl].
  destruct (shr_shifted A B (shr_record_of_loc q l) e (E - e)) as (He1 & Hs & Hm1 & Hb);
    [exact HB|now rewrite Hm|now rewrite Hm, Hl|].
  change (shr (shr_record_of_loc q l) e (E - e)) with (shr_fexp prec emax q e l)
    in He1, Hs, Hm1, Hb.
  change (fst (shr_fexp prec emax q e l)) with mrs in Hs, Hm1, Hb.
  rewrite Hm in Hb. replace (Z.max 0 (E - e)) with (E - e) in * by lia.
  assert (Hn : 0 < 2 ^ (E - e)) by (apply Z.pow_pos_nonneg; lia).
  split; [lia|]. split; [exact Hs|].
  destruct (Z.eq_dec q 0) as [->|Hq0].
  - assert (shr_m mrs = 0) by nia.
    split.
    + assert (0 < 2 ^ prec) by (apply Z.pow_pos_nonneg; lia). lia.
    + left. subst E. cbn [Zdigits2] in *. unfold SpecFloat.fexp in *. lia.
  - destruct (Zdigits2_spec q) as [Hlo Hhi]; [lia|].
    pose proof (Zdigits2_nonneg q) as Hd.
    assert (HE : E = emin \/ E = Zdigits2 q + e - prec)
      by (subst E; unfold SpecFloat.fexp; lia).
    split.
    + split; [exact Hm1|].
      assert (Hle : 2 ^ Zdigits2 q <= 2 ^ (E - e + prec)).
      { apply Z.pow_le_mono_r; [lia|]. subst E. unfold SpecFloat.fexp. lia. }
      rewrite Z.pow_add_r in Hle by lia.
      assert (0 < 2 ^ prec) by (apply Z.pow_pos_nonneg; lia). nia.
    + destruct HE as [HE|HE]; [now left|right].
      assert (Heq : 2 ^ (Zdigits2 q - 1) = 2 ^ (E - e) * 2 ^ (prec - 1)).
      { rewrite <- Z.pow_add_r by lia. f_equal. lia. }
      assert (0 < 2 ^ (prec - 1)) by (apply Z.pow_pos_nonneg; lia). nia.
Qed.

Lemma Zdigits2_le (m d : Z) :
  0 <= m -> 0 <= d -> m < 2 ^ d -> Zdigits2 m <= d.
Proof.
  intros Hm0 Hd Hm. destruct (Z_le_gt_dec m 0) as [Hle|Hgt].
  - destruct m; cbn [Zdigits2]; lia.
  - destruct (Zdigits2_spec m) as [Hlo _]; [lia|].
    apply Z.nlt_ge. intros Hlt.
    assert (2 ^ d <= 2 ^ (Zdigits2 m - 1)) by (apply Z.pow_le_mono_r; lia).
    lia.
Qed.

Lemma Zdigits2_ge (m d : Z) : 0 <= d -> 2 ^ d <= m -> d + 1 <= Zdigits2 m.
Proof.
  intros Hd Hm.
  assert (0 < 2 ^ d) by (apply Z.pow_pos_nonneg; lia).
  destruct (Zdigits2_spec m) as [_ Hhi]; [lia|].
  pose proof (Zdigits2_nonneg m).
  apply Z.nlt_ge. intros Hlt.
  assert (2 ^ Zdigits2 m <= 2 ^ d) by (apply Z.pow_le_mono_r; lia).
  lia.
Qed.

(** The second shift of [binary_round_aux]: one place when rounding
    carried into a new bit, none otherwise. *)
Lemma renormalize (sx : bool) (m E : Z) :
  emin <= E -> 0 <= m <= 2 ^ prec ->
  (let '(mrs, e) := shr_fexp prec emax m E loc_Exact in
   match shr_m mrs with
   | Z0 => S754_zero sx
   | Zpos p => if e <=? emax - prec then S754_finite sx p e else S754_infinity sx
   | Zneg _ => S754_nan
   end) = rounded sx m E.
Proof.
  intros HE Hm. unfold Grid.rounded, shr_fexp.
  assert (Hp : 0 < 2 ^ prec) by (apply Z.pow_pos_nonneg; lia).
  destruct (Z.ltb_spec m (2 ^ prec)) as [Hlt|Hge].
  - pose proof (Zdigits2_le m prec ltac:(lia) ltac:(lia) Hlt) as Hd.
    assert (Hn : fexp (Zdigits2 m + E) - E <= 0)
      by (unfold SpecFloat.fexp; lia).
    destruct (fexp (Zdigits2 m + E) - E) as [|n|n]; try lia; reflexivity.
  - assert (m = 2 ^ prec) by lia. subst m.
    pose proof (Zdigits2_le (2 ^ prec) (prec + 1) ltac:(lia) ltac:(lia)) as Hd1.
    rewrite Z.pow_add_r, Z.pow_1_r in Hd1 by lia.
    pose proof (Zdigits2_ge (2 ^ prec) prec ltac:(lia) ltac:(lia)) as Hd2.
    assert (Hn : fexp (Zdigits2 (2 ^ prec) + E) - E = 1)
      by (unfold SpecFloat.fexp; lia).
    rewrite Hn. cbn [shr SpecFloat.iter_pos shr_record_of_loc].
    replace (2 ^ prec) with (2 * 2 ^ (prec - 1)).
    2:{ rewrite <- Z.pow_succ_r by lia. f_equal. lia. }
    assert (Hq : 0 < 2 ^ (prec - 1)) by (apply Z.pow_pos_nonneg; lia).
    destruct (2 ^ (prec - 1)) as [|p|p]; try lia.
    reflexivity.
Qed.

Lemma round_nearest_even_bounds (m : Z) (l : location) :
  m <= round_nearest_even m l <= m + 1.
Proof.
  destruct l as [|[| |]]; cbn [round_nearest_even]; try lia.
  destruct (Z.even m); lia.
Qed.

(** [binary_round_aux] on a non-negative mantissa: the mantissa is
    brought to the exponent [E] of its magnitude, rounded to nearest even
    there, and renormalized. *)
Lemma binary_round_aux_spec (sx : bool) (A B q e : Z) (l : location) :
  0 < B -> 0 <= q -> located A B q l ->
  e <= fexp (Zdigits2 q + e) ->
  let E := fexp (Zdigits2 q + e) in
  exists (m : Z) (lE : location),
    located A (B * 2 ^ (E - e)) m lE
    /\ 0 <= m < 2 ^ prec
    /\ (E = emin \/ 2 ^ (prec - 1) <= m)
    /\ binary_round_aux prec emax sx q e l =
       rounded sx (round_nearest_even m lE) E.
Proof.
  intros HB Hq Hloc He E.
  destruct (shr_fexp_located A B q e l HB Hq Hloc He) as (He1 & Hl1 & Hm1 & Hc).
  fold E in He1, Hl1, Hc.
  unfold binary_round_aux.
  destruct (shr_fexp prec emax q e l) as [mrs e1]. cbn [fst snd] in *. subst e1.
  exists (shr_m mrs), (loc_of_shr_record mrs).
  split; [exact Hl1|]. split; [exact Hm1|]. split; [exact Hc|].
  apply renormalize.
  - subst E. apply fexp_ge_emin.
  - pose proof (round_nearest_even_bounds (shr_m mrs) (loc_of_shr_record mrs)).
    lia.
Qed.

(** *** Order of the results *)

Lemma finish_leb (a E1 b E2 : Z) :
  0 <= a -> 0 <= b ->
  a = 0 \/ (0 < b /\ (E1 < E2 \/ (E1 = E2 /\ a <= b))) ->
  SFleb (finish false a E1) (finish false b E2) = true.
Proof.
  intros Ha Hb H. unfold Grid.finish, SFleb.
  destruct a as [|pa|pa]; try lia.
  - destruct b as [|pb|pb]; try lia; [reflexivity|].
    destruct (E2 <=? emax - prec); reflexivity.
  - destruct H as [H|(Hb0 & H)]; [discriminate H|].
    destruct b as [|pb|pb]; try lia.
    destruct (Z.leb_spec E1 (emax - prec)) as [H1|H1];
      destruct (Z.leb_spec E2 (emax - prec)) as [H2|H2];
      cbn [SFcompare]; try reflexivity; try lia.
    destruct H as [H|[-> H]].
    + apply Z.compare_lt_iff in H. now rewrite H.
    + rewrite Z.compare_refl.
      change (Pos.compare_cont Eq pa pb) with (Pos.compare pa pb).
      destruct (Pos.compare_spec pa pb); try reflexivity; lia.
Qed.

Lemma rounded_leb (a E1 b E2 : Z) :
  0 <= a <= 2 ^ prec -> 0 <= b <= 2 ^ prec ->
  (E1 = E2 /\ a <= b) \/ (E1 < E2 /\ 2 ^ (prec - 1) <= b) ->
  SFleb (rounded false a E1) (rounded false b E2) = true.
Proof.
  intros Ha Hb H. unfold Grid.rounded.
  assert (Hq : 0 < 2 ^ (prec - 1)) by (apply Z.pow_pos_nonneg; lia).
  destruct (Z.ltb_spec a (2 ^ prec)), (Z.ltb_spec b (2 ^ prec));
    apply finish_leb; lia.
Qed.

Lemma round_nearest_even_mono (T1 T2 B m1 m2 : Z) (l1 l2 : location) :
  0 < B -> located T1 B m1 l1 -> located T2 B m2 l2 -> T1 <= T2 ->
  round_nearest_even m1 l1 <= round_nearest_even m2 l2.
Proof.
  intros HB [Hb1 Hl1] [Hb2 Hl2] HT.
  assert (Hm : m1 <= m2) by nia.
  destruct (Z.eq_dec m1 m2) as [->|Hne].
  - subst l1 l2. unfold loc_of.
    destruct (Z.eqb_spec (T1 - m2 * B) 0), (Z.eqb_spec (T2 - m2 * B) 0);
      cbn [round_nearest_even]; try lia;
      try destruct (Z.compare_spec (2 * (T1 - m2 * B)) B);
      try destruct (Z.compare_spec (2 * (T2 - m2 * B)) B);
      try destruct (Z.even m2); lia.
  - pose proof (round_nearest_even_bounds m1 l1).
    pose proof (round_nearest_even_bounds m2 l2). lia.
Qed.

(** Rounding is monotone: of two non-negative values [T1 <= T2], each
    located on the grid of its own exponent, the first rounds to no more
    than the second. *)
Lemma rounded_mono (D K T1 T2 m1 m2 E1 E2 : Z) (l1 l2 : location) :
  0 < D -> 0 <= E1 + K -> 0 <= E2 + K -> emin <= E1 -> emin <= E2 ->
  located T1 (D * 2 ^ (E1 + K)) m1 l1 ->
  located T2 (D * 2 ^ (E2 + K)) m2 l2 ->
  0 <= m1 < 2 ^ prec -> 0 <= m2 < 2 ^ prec ->
  E1 = emin \/ 2 ^ (prec - 1) <= m1 ->
  E2 = emin \/ 2 ^ (prec - 1) <= m2 ->
  T1 <= T2 ->
  SFleb (rounded false (round_nearest_even m1 l1) E1)
        (rounded false (round_nearest_even m2 l2) E2) = true.
Proof.
  intros HD HK1 HK2 He1 He2 Hl1 Hl2 Hm1 Hm2 Hc1 Hc2 HT.
  pose proof (round_nearest_even_bounds m1 l1) as Hr1.
  pose proof (round_nearest_even_bounds m2 l2) as Hr2.
  assert (Hp1 : 0 < 2 ^ (E1 + K)) by (apply Z.pow_pos_nonneg; lia).
  assert (Hp2 : 0 < 2 ^ (E2 + K)) by (apply Z.pow_pos_nonneg; lia).
  assert (Hq : 2 ^ prec = 2 * 2 ^ (prec - 1)).
  { rewrite <- Z.pow_succ_r by lia. f_equal. lia. }
  assert (Hq0 : 0 < 2 ^ (prec - 1)) by (apply Z.pow_pos_nonneg; lia).
  assert (HE : E1 <= E2).
  { apply Z.nlt_ge. intros Hlt.
    destruct Hc1 as [Hc1|Hc1]; [lia|].
    assert (Hpw : 2 ^ (E1 + K) = 2 ^ (E1 - E2) * 2 ^ (E2 + K)).
    { rewrite <- Z.pow_add_r by lia. f_equal. lia. }
    assert (2 <= 2 ^ (E1 - E2)).
    { change 2 with (2 ^ 1) at 1. apply Z.pow_le_mono_r; lia. }
    destruct Hl1 as [Hb1 _], Hl2 as [Hb2 _].
    assert (2 ^ prec * (D * 2 ^ (E2 + K)) <= m1 * (D * 2 ^ (E1 + K))).
    { rewrite Hpw, Hq. 
      assert (0 < D * 2 ^ (E2 + K)) by nia.
      transitivity (2 ^ (prec - 1) * (2 * (D * 2 ^ (E2 + K)))); [lia|].
      transitivity (m1 * (2 * (D * 2 ^ (E2 + K)))); [nia|].
      replace (m1 * (D * (2 ^ (E1 - E2) * 2 ^ (E2 + K))))
        with (m1 * (2 ^ (E1 - E2) * (D * 2 ^ (E2 + K)))) by ring.
      apply Z.mul_le_mono_nonneg_l; [lia|]. nia. }
    assert ((m2 + 1) * (D * 2 ^ (E2 + K)) <= 2 ^ prec * (D * 2 ^ (E2 + K))).
    { apply Z.mul_le_mono_nonneg_r; [nia|lia]. }
    lia. }
  apply rounded_leb; [lia|lia|].
  destruct (Z.eq_dec E1 E2) as [->|Hne].
  - left. split; [reflexivity|].
    apply (round_nearest_even_mono T1 T2 (D * 2 ^ (E2 + K))); try assumption. nia.
  - right. split; [lia|]. destruct Hc2 as [Hc2|Hc2]; lia.
Qed.

(** *** Division *)

Lemma new_location_pos (my : positive) (r : Z) :
  0 <= r < Zpos my -> new_location (Zpos my) r = loc_of r (Zpos my).
Proof.
  intros Hr. unfold new_location, loc_of.
  destruct my as [p|p|]; cbn [Z.even];
    unfold new_location_even, new_location_odd;
    destruct (Z.eqb_spec r 0) as [_|Hr0]; try reflexivity.
  - destruct (Z.compare_spec (2 * r + 1) (Z.pos p~1)),
             (Z.compare_spec (2 * r) (Z.pos p~1)); try reflexivity; lia.
  - lia.
Qed.

(** The quotient [SFdiv_core_binary] hands to the rounding: its place among
    the multiples of the divisor, at an exponent fine enough. *)
Lemma div_core_located (mx my : positive) (ex ey : Z) :
  let '(q, e, l) := SFdiv_core_binary prec emax (Zpos mx) ex (Zpos my) ey in
  located (Zpos mx * 2 ^ (ex - ey - e)) (Zpos my) q l
  /\ 0 <= q
  /\ e <= ex - ey
  /\ e <= fexp (Zdigits2 q + e).
Proof.
  unfold SFdiv_core_binary.
  set (d1 := Zdigits2 (Z.pos mx)). set (d2 := Zdigits2 (Z.pos my)).
  set (e := Z.min (fexp (d1 + ex - (d2 + ey))) (ex - ey)).
  set (s := ex - ey - e).
  assert (Hs : 0 <= s) by (subst s e; lia).
  set (m' := match s with Z.pos _ => Z.shiftl (Z.pos mx) s | 0 => Z.pos mx | Z.neg _ => 0 end).
  assert (Hm' : m' = Z.pos mx * 2 ^ s).
  { subst m'. generalize s Hs. intros [|p|p] Hp; try lia.
    apply Z.shiftl_mul_pow2. lia. }
  pose proof (Z_div_mod m' (Z.pos my) ltac:(lia)) as Hdiv.
  destruct (Z.div_eucl m' (Z.pos my)) as [q r]. destruct Hdiv as [Hdiv Hr].
  cbv beta iota. change (ex - ey - e) with s.
  assert (Hp : 0 < 2 ^ s) by (apply Z.pow_pos_nonneg; lia).
  assert (Hq : 0 <= q) by nia.
  split.
  { unfold located. rewrite <- Hm'. split; [nia|].
    rewrite new_location_pos by exact Hr. f_equal. lia. }
  split; [exact Hq|]. split; [subst e; lia|].
  transitivity (fexp (d1 + ex - (d2 + ey))); [subst e; lia|].
  apply fexp_mono.
  destruct (Zdigits2_spec (Z.pos mx)) as [Hlo1 _]; [lia|].
  destruct (Zdigits2_spec (Z.pos my)) as [_ Hhi2]; [lia|].
  fold d1 in Hlo1. fold d2 in Hhi2.
  assert (Hd1 : 1 <= d1) by (subst d1; cbn; lia).
  assert (Hd2 : 1 <= d2) by (subst d2; cbn; lia).
  pose proof (Zdigits2_nonneg q) as Hdq.
  destruct (Z_le_gt_dec (d1 - d2 + s) 0) as [Hk|Hk]; [subst s; lia|].
  enough (d1 - d2 + s - 1 + 1 <= Zdigits2 q) by (subst s; lia).
  apply Zdigits2_ge; [lia|].
  assert (Hpw : 2 ^ (d1 - 1) * 2 ^ s = 2 ^ (d1 - d2 + s - 1) * 2 ^ d2).
  { rewrite <- !Z.pow_add_r by lia. f_equal. lia. }
  assert (0 < 2 ^ (d1 - d2 + s - 1)) by (apply Z.pow_pos_nonneg; lia).
  nia.
Qed.

Lemma located_scale (A B m c : Z) (l : location) :
  0 < c -> located (A * c) (B * c) m l <-> located A B m l.
Proof.
  intros Hc. unfold located, loc_of.
  replace (A * c - m * (B * c)) with ((A - m * B) * c) by ring.
  assert (Heq : ((A - m * B) * c =? 0) = (A - m * B =? 0)).
  { destruct (Z.eqb_spec ((A - m * B) * c) 0), (Z.eqb_spec (A - m * B) 0);
      try reflexivity; nia. }
  assert (Hcmp : (2 * ((A - m * B) * c) ?= B * c) = (2 * (A - m * B) ?= B)).
  { destruct (Z.compare_spec (2 * ((A - m * B) * c)) (B * c)),
             (Z.compare_spec (2 * (A - m * B)) B); try reflexivity; nia. }
  rewrite Heq, Hcmp.
  split; intros [Hb Hl]; (split; [nia|exact Hl]).
Qed.

(** The quotient of two positive finite floats: the rounding of the exact
    quotient [mx * 2^ex / (my * 2^ey)], located on the grid of its final
    exponent [E]. *)
Lemma div_finite_spec (mx my : positive) (ex ey : Z) :
  exists (E m : Z) (lE : location),
    emin <= E
    /\ 0 <= m < 2 ^ prec
    /\ (E = emin \/ 2 ^ (prec - 1) <= m)
    /\ (forall K : Z, 0 <= ex - ey + K -> 0 <= E + K ->
          located (Zpos mx * 2 ^ (ex - ey + K)) (Zpos my * 2 ^ (E + K)) m lE)
    /\ SFdiv prec emax (S754_finite false mx ex) (S754_finite false my ey) =
       rounded false (round_nearest_even m lE) E.
Proof.
  pose proof (div_core_located mx my ex ey) as Hcore.
  cbn [SFdiv xorb].
  destruct (SFdiv_core_binary prec emax (Z.pos mx) ex (Z.pos my) ey)
    as [[q e] l].
  destruct Hcore as (Hloc & Hq & He & Hfe).
  destruct (binary_round_aux_spec false (Z.pos mx * 2 ^ (ex - ey - e))
              (Z.pos my) q e l ltac:(lia) Hq Hloc Hfe)
    as (m & lE & HlE & Hm & Hc & Hr).
  set (E := fexp (Zdigits2 q + e)) in *.
  exists E, m, lE.
  split; [apply fexp_ge_emin|]. split; [exact Hm|]. split; [exact Hc|].
  split; [|exact Hr].
  intros K HK1 HK2.
  destruct (Z_le_gt_dec 0 (e + K)) as [Hpos|Hneg].
  - apply (located_scale _ _ _ (2 ^ (e + K))) in HlE;
      [|apply Z.pow_pos_nonneg; lia].
    rewrite <- !Z.mul_assoc, <- !Z.pow_add_r in HlE by lia.
    replace (ex - ey - e + (e + K)) with (ex - ey + K) in HlE by lia.
    replace (E - e + (e + K)) with (E + K) in HlE by lia.
    exact HlE.
  - apply (located_scale _ _ _ (2 ^ (- (e + K))));
      [apply Z.pow_pos_nonneg; lia|].
    rewrite <- !Z.mul_assoc, <- !Z.pow_add_r by lia.
    replace (ex - ey + K + - (e + K)) with (ex - ey - e) by lia.
    replace (E + K + - (e + K)) with (E - e) by lia.
    exact HlE.
Qed.

(** The order of two positive finite floats of the format is the order of
    their values. *)
Lemma bounded_leb_value (m1 m2 : positive) (e1 e2 k : Z) :
  bounded prec emax m1 e1 = true -> bounded prec emax m2 e2 = true ->
  SFleb (S754_finite false m1 e1) (S754_finite false m2 e2) = true ->
  0 <= e1 + k -> 0 <= e2 + k ->
  Zpos m1 * 2 ^ (e1 + k) <= Zpos m2 * 2 ^ (e2 + k).
Proof.
  unfold bounded, canonical_mantissa, SFleb. cbn [SFcompare].
  intros H1 H2 Hle Hk1 Hk2.
  apply andb_true_iff in H1 as [H1 _]. apply andb_true_iff in H2 as [H2 _].
  apply Z.eqb_eq in H1, H2.
  destruct (Z.compare_spec e1 e2) as [->|Hlt|Hgt]; try discriminate Hle.
  - change (Pos.compare_cont Eq m1 m2) with (Pos.compare m1 m2) in Hle.
    assert (0 < 2 ^ (e2 + k)) by (apply Z.pow_pos_nonneg; lia).
    destruct (Pos.compare_spec m1 m2); try discriminate Hle; nia.
  - destruct (digits2_pos_spec m1) as [_ Hhi1].
    destruct (digits2_pos_spec m2) as [Hlo2 _].
    pose proof (fexp_ge_emin (Z.pos (digits2_pos m1) + e1)) as Hmin.
    unfold SpecFloat.fexp in H1, H2.
    assert (Hd1 : Z.pos (digits2_pos m1) <= prec) by lia.
    assert (Hd2 : Z.pos (digits2_pos m2) = prec) by lia.
    rewrite Hd2 in Hlo2.
    assert (2 ^ Z.pos (digits2_pos m1) <= 2 ^ prec)
      by (apply Z.pow_le_mono_r; lia).
    assert (Hq : 2 ^ prec = 2 * 2 ^ (prec - 1)).
    { rewrite <- Z.pow_succ_r by lia. f_equal. lia. }
    assert (Hpw : 2 ^ (e2 + k) = 2 ^ (e2 - e1) * 2 ^ (e1 + k)).
    { rewrite <- Z.pow_add_r by lia. f_equal. lia. }
    assert (2 <= 2 ^ (e2 - e1)).
    { change 2 with (2 ^ 1) at 1. apply Z.pow_le_mono_r; lia. }
    assert (0 < 2 ^ (e1 + k)) by (apply Z.pow_pos_nonneg; lia).
    rewrite Hpw.
    transitivity (2 ^ prec * 2 ^ (e1 + k)); [nia|].
    rewrite Hq.
    transitivity (2 ^ (prec - 1) * (2 ^ (e2 - e1) * 2 ^ (e1 + k))); [nia|].
    apply Z.mul_le_mono_nonneg_r; [nia|lia].
Qed.

Lemma rounded_nonneg (sz : bool) (m E : Z) :
  0 <= m <= 2 ^ prec -> SFleb (S754_zero sz) (rounded false m E) = true.
Proof.
  intros Hm. unfold Grid.rounded, Grid.finish.
  assert (Hq : 0 < 2 ^ (prec - 1)) by (apply Z.pow_pos_nonneg; lia).
  destruct (m <? 2 ^ prec).
  - destruct m as [|p|p]; try lia; [reflexivity|].
    destruct (E <=? emax - prec); reflexivity.
  - destruct (2 ^ (prec - 1)) as [|p|p]; try lia.
    destruct (E + 1 <=? emax - prec); reflexivity.
Qed.

(** Dividing by a positive finite float keeps the order of positive finite
    numerators. *)
Lemma div_finite_mono (m1 m2 my : positive) (e1 e2 ey : Z) :
  bounded prec emax m1 e1 = true -> bounded prec emax m2 e2 = true ->
  SFleb (S754_finite false m1 e1) (S754_finite false m2 e2) = true ->
  SFleb (SFdiv prec emax (S754_finite false m1 e1) (S754_finite false my ey))
        (SFdiv prec emax (S754_finite false m2 e2) (S754_finite false my ey))
  = true.
Proof.
  intros Hb1 Hb2 Hle.
  destruct (div_finite_spec m1 my e1 ey)
    as (E1 & a1 & l1 & HE1 & Ha1 & Hc1 & Hloc1 & ->).
  destruct (div_finite_spec m2 my e2 ey)
    as (E2 & a2 & l2 & HE2 & Ha2 & Hc2 & Hloc2 & ->).
  set (K := Z.max (Z.max (ey - e1) (ey - e2)) (Z.max (- E1) (- E2))).
  apply (rounded_mono (Zpos my) K
           (Zpos m1 * 2 ^ (e1 - ey + K)) (Zpos m2 * 2 ^ (e2 - ey + K)));
    try assumption; try lia.
  - apply Hloc1; lia.
  - apply Hloc2; lia.
  - replace (e1 - ey + K) with (e1 + (K - ey)) by lia.
    replace (e2 - ey + K) with (e2 + (K - ey)) by lia.
    apply bounded_leb_value; try assumption; lia.
Qed.

End Rounding.

(** ** Rounded operations

    What [SFmul], [SFadd] and [SFsqrt] return, as roundings of exact
    values. *)

Section Operations.
Import Grid.
Variables prec emax : Z.
Hypothesis Hprec : 0 < prec.
Hypothesis Hemax : prec < emax.

Local Abbreviation emin := (SpecFloat.emin prec emax).
Local Abbreviation fexp := (SpecFloat.fexp prec emax).
Local Abbreviation rounded := (Grid.rounded prec emax).
Local Abbreviation rounds_to := (Grid.rounds_to prec emax).

Lemma pow2_half : 2 ^ prec = 2 * 2 ^ (prec - 1).
Proof. rewrite <- Z.pow_succ_r by lia. f_equal. lia. Qed.

Lemma digits2_pos_eq (p : positive) (d : Z) :
  2 ^ (d - 1) <= Zpos p < 2 ^ d -> 0 < d -> Zpos (digits2_pos p) = d.
Proof.
  intros [Hlo Hhi] Hd.
  pose proof (Zdigits2_le (Zpos p) d ltac:(lia) ltac:(lia) Hhi) as H1.
  pose proof (Zdigits2_ge (Zpos p) (d - 1) ltac:(lia) Hlo) as H2.
  cbn [Zdigits2] in H1, H2. lia.
Qed.

(** A mantissa rounded on the grid of its exponent is a float of the
    format. *)
Lemma rounded_valid (sx : bool) (m E : Z) :
  emin <= E -> 0 <= m <= 2 ^ prec ->
  E = emin \/ 2 ^ (prec - 1) <= m ->
  valid_binary prec emax (rounded sx m E) = true.
Proof.
  intros HE Hm Hc. unfold Grid.rounded, Grid.finish.
  pose proof pow2_half as Hh.
  assert (Hq : 0 < 2 ^ (prec - 1)) by (apply Z.pow_pos_nonneg; lia).
  destruct (Z.ltb_spec m (2 ^ prec)) as [Hlt|Hge].
  - destruct m as [|p|p]; try lia; [reflexivity|].
    destruct (Z.leb_spec E (emax - prec)) as [HEm|HEm]; [|reflexivity].
    cbn [valid_binary]. unfold bounded, canonical_mantissa.
    apply andb_true_iff. split; [|now apply Z.leb_le].
    apply Z.eqb_eq.
    pose proof (Zdigits2_le (Zpos p) prec ltac:(lia) ltac:(lia) Hlt) as Hd.
    cbn [Zdigits2] in Hd.
    destruct Hc as [->|Hc]; [unfold SpecFloat.fexp; lia|].
    rewrite (digits2_pos_eq p prec) by lia.
    unfold SpecFloat.fexp, SpecFloat.emin in *. lia.
  - destruct (2 ^ (prec - 1)) as [|p|p] eqn:Ep; try lia.
    destruct (Z.leb_spec (E + 1) (emax - prec)) as [HEm|HEm]; [|reflexivity].
    cbn [valid_binary]. unfold bounded, canonical_mantissa.
    apply andb_true_iff. split; [|now apply Z.leb_le].
    apply Z.eqb_eq. rewrite (digits2_pos_eq p prec); [|rewrite <- Ep; lia|lia].
    unfold SpecFloat.fexp, SpecFloat.emin in *. lia.
Qed.

Lemma rounds_to_valid (D : Z) (T : Z -> Z) (x : spec_float) :
  rounds_to D T x -> valid_binary prec emax x = true.
Proof.
  intros (E & m & lE & K0 & HE & Hm & Hc & _ & ->).
  pose proof (round_nearest_even_bounds m lE).
  apply rounded_valid; [exact HE|lia|].
  destruct Hc; [now left|right; lia].
Qed.

Lemma rounds_to_nonneg (D : Z) (T : Z -> Z) (x : spec_float) :
  rounds_to D T x -> SFleb (S754_zero false) x = true.
Proof.
  intros (E & m & lE & K0 & HE & Hm & Hc & _ & ->).
  pose proof (round_nearest_even_bounds m lE).
  apply rounded_nonneg; [exact Hprec|lia].
Qed.

Lemma rounds_to_ext (D : Z) (T T' : Z -> Z) (K1 : Z) (x : spec_float) :
  (forall K : Z, K1 <= K -> T K = T' K) ->
  rounds_to D T x -> rounds_to D T' x.
Proof.
  intros HT (E & m & lE & K0 & HE & Hm & Hc & Hl & Hx).
  exists E, m, lE, (Z.max K0 K1). repeat (split; [assumption|]).
  split; [|exact Hx].
  intros K HK. rewrite <- HT by lia. apply Hl. lia.
Qed.


(** The rounding of [binary_round_aux], as a value rounded. *)
Lemma binary_round_aux_rounds (A B q e : Z) (l : location) :
  0 < B -> 0 <= q -> located A B q l ->
  e <= fexp (Zdigits2 q + e) ->
  rounds_to B (fun K => A * 2 ^ (e + K))
    (binary_round_aux prec emax false q e l).
Proof.
  intros HB Hq Hloc He.
  destruct (binary_round_aux_spec prec emax Hprec false A B q e l HB Hq Hloc He)
    as (m & lE & HlE & Hm & Hc & Hr).
  set (E := fexp (Zdigits2 q + e)) in *.
  exists E, m, lE, (- e).
  split; [apply fexp_ge_emin|]. split; [exact Hm|]. split; [exact Hc|].
  split; [|exact Hr].
  intros K HK. split; [lia|].
  apply (located_scale _ _ _ (2 ^ (e + K))) in HlE;
    [|apply Z.pow_pos_nonneg; lia].
  rewrite <- !Z.mul_assoc, <- !Z.pow_add_r in HlE by lia.
  replace (E - e + (e + K)) with (E + K) in HlE by lia.
  exact HlE.
Qed.



(** *** Multiplication *)

Lemma bounded_digits (m : positive) (e : Z) :
  bounded prec emax m e = true ->
  emin <= e <= emax - prec
  /\ Zpos (digits2_pos m) <= prec
  /\ (e = emin \/ Zpos (digits2_pos m) = prec).
Proof.
  unfold bounded, canonical_mantissa. intros Hb.
  apply andb_true_iff in Hb as [Hc He].
  apply Z.eqb_eq in Hc. apply Z.leb_le in He.
  unfold SpecFloat.fexp in Hc. lia.
Qed.

Lemma mul_rounds (mx my : positive) (ex ey : Z) :
  bounded prec emax mx ex = true -> bounded prec emax my ey = true ->
  rounds_to 1 (fun K => Zpos mx * Zpos my * 2 ^ (ex + ey + K))
    (binary_round_aux prec emax false (Zpos (mx * my)) (ex + ey) loc_Exact).
Proof.
  intros Hx Hy.
  destruct (bounded_digits mx ex Hx) as (Hex & Hdx & Hcx).
  destruct (bounded_digits my ey Hy) as (Hey & Hdy & Hcy).
  rewrite Pos2Z.inj_mul.
  apply binary_round_aux_rounds; [lia|lia| |].
  - unfold located, loc_of.
    replace (Zpos mx * Zpos my - Zpos mx * Zpos my * 1) with 0 by ring.
    split; [lia|reflexivity].
  - destruct (digits2_pos_spec mx) as [Hlx _].
    destruct (digits2_pos_spec my) as [Hly _].
    set (dx := Zpos (digits2_pos mx)) in *. set (dy := Zpos (digits2_pos my)) in *.
    assert (Hd : dx + dy - 2 + 1 <= Zdigits2 (Zpos mx * Zpos my)).
    { apply Zdigits2_ge; [lia|].
      replace (dx + dy - 2) with ((dx - 1) + (dy - 1)) by lia.
      rewrite Z.pow_add_r by lia.
      assert (0 < 2 ^ (dx - 1)) by (apply Z.pow_pos_nonneg; lia).
      assert (0 < 2 ^ (dy - 1)) by (apply Z.pow_pos_nonneg; lia).
      nia. }
    transitivity (fexp (dx + dy - 1 + (ex + ey))).
    + unfold SpecFloat.fexp, SpecFloat.emin in *. lia.
    + apply fexp_mono. lia.
Qed.

(** *** Addition *)

Lemma iter_xO_pow2 (m d : positive) :
  Zpos (Pos.iter xO m d) = Zpos m * 2 ^ Zpos d.
Proof.
  induction d as [|d IH] using Pos.peano_ind.
  - cbn [Pos.iter]. rewrite Z.pow_1_r. lia.
  - rewrite Pos.iter_succ, Pos2Z.inj_succ, Z.pow_succ_r by lia.
    rewrite Pos2Z.inj_xO, IH. lia.
Qed.

Lemma shl_align_value (m : positive) (e e' : Z) :
  let '(m', e'') := shl_align m e e' in
  e'' = Z.min e e' /\ Zpos m' = Zpos m * 2 ^ (e - e'').
Proof.
  unfold shl_align. destruct (e' - e) as [|d|d] eqn:Hd.
  - split; [lia|]. rewrite Z.sub_diag, Z.pow_0_r. lia.
  - split; [lia|]. rewrite Z.sub_diag, Z.pow_0_r. lia.
  - split; [lia|]. rewrite iter_xO_pow2. f_equal. f_equal. lia.
Qed.

Lemma Zdigits2_shift (m k : Z) :
  0 < m -> 0 <= k -> Zdigits2 (m * 2 ^ k) = Zdigits2 m + k.
Proof.
  intros Hm Hk.
  destruct (Zdigits2_spec m Hm) as [Hlo Hhi].
  assert (Hp : 0 < 2 ^ k) by (apply Z.pow_pos_nonneg; lia).
  assert (Hd : 0 < Zdigits2 m) by (destruct m; cbn; lia).
  assert (H1 : Zdigits2 (m * 2 ^ k) <= Zdigits2 m + k).
  { apply Zdigits2_le; [nia|lia|]. rewrite Z.pow_add_r by lia. nia. }
  assert (H2 : Zdigits2 m + k - 1 + 1 <= Zdigits2 (m * 2 ^ k)).
  { apply Zdigits2_ge; [lia|].
    replace (Zdigits2 m + k - 1) with (Zdigits2 m - 1 + k) by lia.
    rewrite Z.pow_add_r by lia. nia. }
  lia.
Qed.

(** [binary_round] rounds the value of the mantissa and exponent it is
    given. *)
Lemma binary_round_rounds (M : positive) (e : Z) :
  rounds_to 1 (fun K => Zpos M * 2 ^ (e + K))
    (binary_round prec emax false M e).
Proof.
  unfold binary_round.
  pose proof (shl_align_value M e (fexp (Zpos (digits2_pos M) + e))) as Hs.
  destruct (shl_align M e (fexp (Zpos (digits2_pos M) + e))) as [mz ez].
  destruct Hs as [Hez Hmz].
  apply (rounds_to_ext 1 (fun K => Zpos mz * 2 ^ (ez + K)) _ (- ez)).
  { intros K HK. rewrite Hmz, <- Z.mul_assoc, <- Z.pow_add_r by lia.
    f_equal. f_equal. lia. }
  apply binary_round_aux_rounds; [lia|lia| |].
  - unfold located, loc_of.
    replace (Zpos mz - Zpos mz * 1) with 0 by ring.
    split; [lia|reflexivity].
  - rewrite Hmz, Zdigits2_shift by lia. cbn [Zdigits2].
    replace (Zpos (digits2_pos M) + (e - ez) + ez)
      with (Zpos (digits2_pos M) + e) by lia.
    lia.
Qed.

Lemma add_rounds (mx my : positive) (ex ey : Z) :
  rounds_to 1 (fun K => Zpos mx * 2 ^ (ex + K) + Zpos my * 2 ^ (ey + K))
    (SFadd prec emax (S754_finite false mx ex) (S754_finite false my ey)).
Proof.
  cbn [SFadd cond_Zopp].
  pose proof (shl_align_value mx ex (Z.min ex ey)) as Hx.
  pose proof (shl_align_value my ey (Z.min ex ey)) as Hy.
  destruct (shl_align mx ex (Z.min ex ey)) as [mx' ex'].
  destruct (shl_align my ey (Z.min ex ey)) as [my' ey'].
  destruct Hx as [Hex Hmx], Hy as [Hey Hmy]. cbn [fst].
  change (Zpos mx' + Zpos my') with (Zpos (mx' + my')).
  cbn [binary_normalize].
  apply (rounds_to_ext 1
           (fun K => Zpos (mx' + my') * 2 ^ (Z.min ex ey + K)) _
           (- Z.min ex ey)); [|apply binary_round_rounds].
  intros K HK. rewrite Pos2Z.inj_add, Hmx, Hmy, Z.mul_add_distr_r.
  rewrite <- !Z.mul_assoc, <- !Z.pow_add_r by lia.
  f_equal; f_equal; f_equal; lia.
Qed.

(** *** Square root *)

Lemma located_quarter (q : Z) (l : location) :
  located (4 * q + quarter l) 4 q l.
Proof.
  unfold located, loc_of.
  replace (4 * q + quarter l - q * 4) with (quarter l) by ring.
  destruct l as [|[| |]]; cbn [quarter]; split; try reflexivity; lia.
Qed.

(** On a coarser grid the root lies where its stand-in lies. *)
Lemma located_sqrt_coarser (N q m n : Z) (l lE : location) :
  0 <= q -> 0 <= m -> 0 <= n ->
  located_sqrt N 1 q l ->
  located (4 * q + quarter l) (4 * 2 ^ n) m lE ->
  located_sqrt N (2 ^ n) m lE.
Proof.
  intros Hq Hm Hn [Hb Hl] [Hb' Hl'].
  assert (HG : 0 < 2 ^ n) by (apply Z.pow_pos_nonneg; lia).
  set (G := 2 ^ n) in *.
  assert (Hquart : 0 <= quarter l <= 3) by (destruct l as [|[| |]]; cbn; lia).
  assert (HqG : m * G <= q < (m + 1) * G) by lia.
  assert (Hlo : m * m * (G * G) <= q * q) by nia.
  assert (Hhi : (q + 1) * (q + 1) <= (m + 1) * (m + 1) * (G * G)) by nia.
  rewrite !Z.mul_1_r in Hb.
  split; [lia|].
  assert (Hex : quarter l = 0 <-> N = q * q).
  { subst l. rewrite !Z.mul_1_r.
    destruct (Z.eqb_spec N (q * q)); [cbn; lia|].
    destruct (4 * N ?= (2 * q + 1) * (2 * q + 1)); cbn; lia. }
  subst lE. unfold loc_of.
  replace (4 * q + quarter l - m * (4 * G)) with (4 * (q - m * G) + quarter l)
    by ring.
  destruct (Z.eqb_spec (4 * (q - m * G) + quarter l) 0) as [H0|H0].
  - assert (q = m * G) by lia. assert (quarter l = 0) by lia.
    assert (N = q * q) by (apply Hex; assumption).
    destruct (Z.eqb_spec N (m * m * (G * G))); [reflexivity|nia].
  - assert (HN : N <> m * m * (G * G)).
    { intros HN. destruct (Z.eq_dec q (m * G)) as [Hqm|Hqm].
      - assert (N = q * q) by nia. apply Hex in H. lia.
      - assert (m * G + 1 <= q) by lia. nia. }
    destruct (Z.eqb_spec N (m * m * (G * G))); [contradiction|].
    f_equal.
    destruct (Z.eq_dec n 0) as [->|Hn0].
    + (* the grid is unchanged *)
      subst G. rewrite Z.pow_0_r in *. assert (q = m) by lia. subst q.
      rewrite !Z.mul_1_r.
      replace (2 * (4 * (m - m * 1) + quarter l)) with (2 * quarter l) by ring.
      subst l. rewrite !Z.mul_1_r.
      destruct (Z.eqb_spec N (m * m)); [lia|].
      destruct (Z.compare_spec (4 * N) ((2 * m + 1) * (2 * m + 1)));
        cbn [quarter]; rewrite ?Z.sub_diag; reflexivity.
    + (* the middle of the coarser grid is an integer *)
      assert (HGh : G = 2 * 2 ^ (n - 1)).
      { subst G. rewrite <- Z.pow_succ_r by lia. f_equal. lia. }
      set (h := 2 ^ (n - 1)) in *.
      assert (Hh : 0 < h) by (apply Z.pow_pos_nonneg; lia).
      set (t := q - m * G) in *.
      assert (Hmid : (2 * m + 1) * (2 * m + 1) * (G * G)
                     = 4 * ((m * G + h) * (m * G + h))) by (rewrite HGh; ring).
      rewrite Hmid.
      destruct (Z.compare_spec (2 * (4 * t + quarter l)) (4 * G)) as [Hc|Hc|Hc];
        symmetry.
      * assert (t = h) by lia. assert (quarter l = 0) by lia.
        assert (N = q * q) by (apply Hex; assumption).
        apply Z.compare_eq_iff. subst t. nia.
      * assert (t <= h - 1) by lia.
        apply Z.compare_lt_iff. subst t.
        assert (0 <= m * G) by (apply Z.mul_nonneg_nonneg; lia).
        assert ((q + 1) * (q + 1) <= (m * G + h) * (m * G + h))
          by (apply Z.mul_le_mono_nonneg; lia).
        lia.
      * apply Z.compare_gt_iff.
        destruct (Z.eq_dec t h) as [Hth|Hth].
        -- assert (quarter l <> 0) by lia.
           assert (N <> q * q) by (intros HH; apply Hex in HH; lia).
           subst t. nia.
        -- assert (h + 1 <= t) by lia. subst t.
           assert (0 <= m * G) by (apply Z.mul_nonneg_nonneg; lia).
           assert ((m * G + h + 1) * (m * G + h + 1) <= q * q)
             by (apply Z.mul_le_mono_nonneg; lia).
           lia.
Qed.

Lemma located_sqrt_scale (N G m c : Z) (l : location) :
  0 < c -> located_sqrt N G m l -> located_sqrt (N * (c * c)) (G * c) m l.
Proof.
  intros Hc [Hb Hl]. unfold located_sqrt.
  replace (m * m * (G * c * (G * c))) with (m * m * (G * G) * (c * c)) by ring.
  replace ((m + 1) * (m + 1) * (G * c * (G * c)))
    with ((m + 1) * (m + 1) * (G * G) * (c * c)) by ring.
  replace ((2 * m + 1) * (2 * m + 1) * (G * c * (G * c)))
    with ((2 * m + 1) * (2 * m + 1) * (G * G) * (c * c)) by ring.
  assert (Hcc : 0 < c * c) by nia.
  split; [nia|]. subst l.
  assert (Heq : (N * (c * c) =? m * m * (G * G) * (c * c))
                = (N =? m * m * (G * G))).
  { destruct (Z.eqb_spec (N * (c * c)) (m * m * (G * G) * (c * c))),
             (Z.eqb_spec N (m * m * (G * G))); try reflexivity; nia. }
  assert (Hcmp : (4 * (N * (c * c))
                  ?= (2 * m + 1) * (2 * m + 1) * (G * G) * (c * c))
                 = (4 * N ?= (2 * m + 1) * (2 * m + 1) * (G * G))).
  { destruct (Z.compare_spec (4 * (N * (c * c)))
                ((2 * m + 1) * (2 * m + 1) * (G * G) * (c * c))),
             (Z.compare_spec (4 * N) ((2 * m + 1) * (2 * m + 1) * (G * G)));
      try reflexivity; nia. }
  now rewrite Heq, Hcmp.
Qed.

(** The root [SFsqrt_core_binary] hands to the rounding. *)
Lemma sqrt_core_located (mx : positive) (ex : Z) :
  let '(q, e, l) := SFsqrt_core_binary prec emax (Zpos mx) ex in
  0 <= q
  /\ 2 * e <= ex
  /\ located_sqrt (Zpos mx * 2 ^ (ex - 2 * e)) 1 q l
  /\ e <= fexp (Zdigits2 q + e).
Proof.
  unfold SFsqrt_core_binary.
  set (d := Zdigits2 (Z.pos mx)).
  rewrite !Z.div2_div.
  set (M := (d + ex + 1) / 2).
  assert (HM2 : 2 * M <= d + ex + 1) by (apply Z.mul_div_le; lia).
  assert (He2 : 2 * (ex / 2) <= ex) by (apply Z.mul_div_le; lia).
  set (e := Z.min (fexp M) (ex / 2)).
  set (s := ex - 2 * e).
  assert (Hs : 0 <= s) by (subst s e; lia).
  set (m' := match s with Z.pos _ => Z.shiftl (Z.pos mx) s | 0 => Z.pos mx | Z.neg _ => 0 end).
  assert (Hm' : m' = Z.pos mx * 2 ^ s).
  { subst m'. generalize s Hs. intros [|p|p] Hp; try lia.
    apply Z.shiftl_mul_pow2. lia. }
  assert (Hp : 0 < 2 ^ s) by (apply Z.pow_pos_nonneg; lia).
  pose proof (Z.sqrtrem_spec m' ltac:(nia)) as Hsq.
  destruct (Z.sqrtrem m') as [q r]. destruct Hsq as [Hsq Hr].
  cbv beta iota zeta. change (ex - 2 * e) with s.
  assert (Hq : 0 <= q) by lia.
  split; [exact Hq|]. split; [subst s; lia|].
  rewrite <- Hm'. split.
  { unfold located_sqrt. rewrite !Z.mul_1_r. split; [nia|].
    destruct (Z.eqb_spec r 0) as [Hr0|Hr0];
      destruct (Z.eqb_spec m' (q * q)) as [Hmq|Hmq]; try lia; try reflexivity.
    f_equal.
    destruct (Z.leb_spec r q);
      destruct (Z.compare_spec (4 * m') ((2 * q + 1) * (2 * q + 1)));
      try reflexivity; nia. }
  transitivity (fexp M); [subst e; lia|].
  apply fexp_mono.
  destruct (Zdigits2_spec (Z.pos mx)) as [Hlo _]; [lia|]. fold d in Hlo.
  assert (Hd : 1 <= d) by (subst d; cbn; lia).
  pose proof (Zdigits2_nonneg q) as Hdq.
  destruct (Z_le_gt_dec (M - e) 0) as [Hk|Hk]; [lia|].
  enough (M - e - 1 + 1 <= Zdigits2 q) by lia.
  apply Zdigits2_ge; [lia|].
  set (k := M - e - 1) in *.
  assert (Hk2 : 2 * k <= d - 1 + s) by (subst k s; lia).
  assert (Hpk : 0 < 2 ^ k) by (apply Z.pow_pos_nonneg; lia).
  assert (Hkk : 2 ^ k * 2 ^ k <= 2 ^ (d - 1) * 2 ^ s).
  { rewrite <- !Z.pow_add_r by lia. apply Z.pow_le_mono_r; lia. }
  assert (Hd1 : 0 < 2 ^ (d - 1)) by (apply Z.pow_pos_nonneg; lia).
  nia.
Qed.

Lemma sqrt_rounds (mx : positive) (ex : Z) :
  sqrt_rounds_to prec emax (fun K => Zpos mx * 2 ^ (ex + 2 * K))
    (SFsqrt prec emax (S754_finite false mx ex)).
Proof.
  pose proof (sqrt_core_located mx ex) as Hcore.
  cbn [SFsqrt].
  destruct (SFsqrt_core_binary prec emax (Z.pos mx) ex) as [[q e] l].
  destruct Hcore as (Hq & He & Hloc & Hfe).
  destruct (binary_round_aux_spec prec emax Hprec false (4 * q + quarter l) 4
              q e l ltac:(lia) Hq (located_quarter q l) Hfe)
    as (m & lE & HlE & Hm & Hc & Hr).
  set (E := fexp (Zdigits2 q + e)) in *.
  exists E, m, lE, (- e).
  split; [apply fexp_ge_emin|]. split; [exact Hm|]. split; [exact Hc|].
  split; [|exact Hr].
  intros K HK. split; [lia|].
  pose proof (located_sqrt_coarser _ q m (E - e) l lE Hq ltac:(lia) ltac:(lia)
                Hloc HlE) as Hs.
  apply (located_sqrt_scale _ _ _ (2 ^ (e + K))) in Hs;
    [|apply Z.pow_pos_nonneg; lia].
  rewrite <- !Z.pow_add_r, <- Z.mul_assoc, <- Z.pow_add_r in Hs by lia.
  replace (ex - 2 * e + (e + K + (e + K))) with (ex + 2 * K) in Hs by lia.
  replace (E - e + (e + K)) with (E + K) in Hs by lia.
  exact Hs.
Qed.



(** *** Division by a greater divisor *)

Lemma div_finite_antitone (mx m1 m2 : positive) (ex e1 e2 : Z) :
  bounded prec emax m1 e1 = true -> bounded prec emax m2 e2 = true ->
  SFleb (S754_finite false m1 e1) (S754_finite false m2 e2) = true ->
  SFleb (SFdiv prec emax (S754_finite false mx ex) (S754_finite false m2 e2))
        (SFdiv prec emax (S754_finite false mx ex) (S754_finite false m1 e1))
  = true.
Proof.
  intros Hb1 Hb2 Hle.
  destruct (div_finite_spec prec emax Hprec mx m2 ex e2)
    as (E2 & a2 & l2 & HE2 & Ha2 & Hc2 & Hloc2 & ->).
  destruct (div_finite_spec prec emax Hprec mx m1 ex e1)
    as (E1 & a1 & l1 & HE1 & Ha1 & Hc1 & Hloc1 & ->).
  set (k := Z.max (- e1) (- e2)).
  assert (Hk : 0 <= e1 + k /\ 0 <= e2 + k) by lia.
  clearbody k. destruct Hk as [Hk1 Hk2].
  set (K := Z.max (Z.max (e1 + e2 + k - ex) (Z.max (e1 - ex) (e2 - ex)))
                  (Z.max (- E1) (- E2))).
  assert (HK : e1 + e2 + k - ex <= K /\ e1 - ex <= K /\ e2 - ex <= K
               /\ - E1 <= K /\ - E2 <= K) by lia.
  clearbody K. destruct HK as (HK1 & HK2 & HK3 & HK4 & HK5).
  pose proof (bounded_leb_value prec emax Hprec m1 m2 e1 e2 k Hb1 Hb2 Hle
                Hk1 Hk2) as Hv.
  clear Hb1 Hb2 Hle.
  specialize (Hloc1 K ltac:(lia) ltac:(lia)).
  specialize (Hloc2 K ltac:(lia) ltac:(lia)).
  apply (located_scale _ _ _ (Zpos m2)) in Hloc1; [|lia].
  apply (located_scale _ _ _ (Zpos m1)) in Hloc2; [|lia].
  replace (Zpos m1 * 2 ^ (E1 + K) * Zpos m2)
    with (Zpos m1 * Zpos m2 * 2 ^ (E1 + K)) in Hloc1 by ring.
  replace (Zpos m2 * 2 ^ (E2 + K) * Zpos m1)
    with (Zpos m1 * Zpos m2 * 2 ^ (E2 + K)) in Hloc2 by ring.
  apply (rounded_mono prec emax Hprec (Zpos m1 * Zpos m2) K
           (Zpos mx * 2 ^ (ex - e2 + K) * Zpos m1)
           (Zpos mx * 2 ^ (ex - e1 + K) * Zpos m2));
    try assumption; [lia|lia|lia|].
  set (J := ex + K - e1 - e2 - k).
  assert (HJ : 0 <= J) by (subst J; lia).
  replace (ex - e2 + K) with (J + (e1 + k)) by (subst J; lia).
  replace (ex - e1 + K) with (J + (e2 + k)) by (subst J; lia).
  rewrite (Z.pow_add_r 2 J (e1 + k)), (Z.pow_add_r 2 J (e2 + k)) by lia.
  assert (0 < 2 ^ J) by (apply Z.pow_pos_nonneg; lia).
  replace (Zpos mx * (2 ^ J * 2 ^ (e1 + k)) * Zpos m1)
    with (Zpos mx * 2 ^ J * (Zpos m1 * 2 ^ (e1 + k))) by ring.
  replace (Zpos mx * (2 ^ J * 2 ^ (e2 + k)) * Zpos m2)
    with (Zpos mx * 2 ^ J * (Zpos m2 * 2 ^ (e2 + k))) by ring.
  apply Z.mul_le_mono_nonneg_l; [|exact Hv].
  apply Z.mul_nonneg_nonneg; lia.
Qed.

End Operations.

(** ** Division in binary64 *)

Section Division.

Import F64.

Ltac absurd_order :=
  match goal with
  | H : F64.leb _ _ = true |- _ => now cbv in H
  | H : F64.ltb _ _ = true |- _ => now cbv in H
  | H : F64.is_finite _ = true |- _ => now cbv in H
  end.

Lemma div_nonneg (x s : float64) :
  leb zero x = true -> is_finite x = true -> ltb zero s = true ->
  leb zero (div x s) = true.
Proof.
  intros Hx Hfx Hs.
  destruct s as [[|]|[|]| |[|] my ey]; try absurd_order;
    destruct x as [[|]|[|]| |[|] mx ex]; try absurd_order; try reflexivity.
  unfold div.
  destruct (div_finite_spec prec emax ltac:(reflexivity) mx my ex ey)
    as (E & m & lE & _ & Hm & _ & _ & ->).
  apply rounded_nonneg; [reflexivity|].
  pose proof (round_nearest_even_bounds m lE). lia.
Qed.

Lemma div_mono (x y s : float64) :
  valid x = true -> valid y = true ->
  leb zero x = true -> leb x y = true -> is_finite y = true ->
  ltb zero s = true ->
  leb (div x s) (div y s) = true.
Proof.
  intros Hvx Hvy Hx Hxy Hfy Hs.
  destruct s as [[|]|[|]| |[|] ms es]; try absurd_order;
    destruct x as [[|]|[|]| |[|] mx ex]; try absurd_order;
    destruct y as [[|]|[|]| |[|] my ey]; try absurd_order;
    try reflexivity.
  - apply (div_nonneg (S754_finite false my ey) (S754_finite false ms es));
      reflexivity.
  - apply (div_nonneg (S754_finite false my ey) (S754_finite false ms es));
      reflexivity.
  - now apply div_finite_mono.
Qed.

End Division.

(** ** Signs *)

Section Symmetry.
Import F64 Locsat.

Lemma binary_round_aux_opp (prec emax : Z) (sx : bool) (m e : Z) (l : location) :
  binary_round_aux prec emax (negb sx) m e l =
  SFopp (binary_round_aux prec emax sx m e l).
Proof.
  unfold binary_round_aux.
  destruct (shr_fexp prec emax m e l) as [mrs e1].
  destruct (shr_fexp prec emax _ e1 loc_Exact) as [mrs2 e2].
  destruct (shr_m mrs2); try reflexivity.
  destruct (e2 <=? emax - prec); reflexivity.
Qed.

Lemma div_opp_r (x s : float64) : div x (opp s) = opp (div x s).
Proof.
  unfold div, opp.
  destruct x as [sx|sx| |sx mx ex], s as [ss|ss| |ss ms es];
    cbn [SFdiv SFopp]; try reflexivity;
    try (destruct sx, ss; reflexivity).
  destruct (SFdiv_core_binary prec emax (Z.pos mx) ex (Z.pos ms) es) as [[q e] l].
  replace (xorb sx (negb ss)) with (negb (xorb sx ss)) by (destruct sx, ss; reflexivity).
  apply binary_round_aux_opp.
Qed.

Lemma square_opp (x : float64) : square (opp x) = square x.
Proof.
  unfold square, mul, opp.
  destruct x as [sx|sx| |sx mx ex]; cbn [SFmul SFopp]; try reflexivity;
    destruct sx; reflexivity.
Qed.

(** X4. Negating the group speed negates every travel time, bit for bit:
    the value of the expression, and so every cell of the table, whatever
    the sample arrays. *)
Theorem travel_time_opp_speed (zs rs : list float64) (z r s : float64) :
  travel_time z r (opp s) = opp (travel_time z r s)
  /\ travel_time_table zs rs (opp s) =
     map (map opp) (travel_time_table zs rs s).
Proof.
  split; [unfold travel_time; apply div_opp_r|].
  unfold travel_time_table. rewrite map_map. apply map_ext. intros z'.
  rewrite map_map. apply map_ext. intros r'.
  unfold travel_time. apply div_opp_r.
Qed.

(** X5. The travel time does not depend on the sign of the depth or of
    the distance. *)
Theorem travel_time_even (z r s : float64) :
  travel_time (opp z) r s = travel_time z r s
  /\ travel_time z (opp r) s = travel_time z r s.
Proof. unfold travel_time. now rewrite !square_opp. Qed.

End Symmetry.

(** ** Sign and order of the travel time

    Each operation of [np.sqrt(z**2 + r**2) / group_speed] keeps the sign
    and the order of its operands. *)

Section TravelTime.
Import F64 Grid Locsat.

Lemma prec_pos : 0 < prec.
Proof. reflexivity. Qed.

Lemma prec_lt_emax : prec < emax.
Proof. reflexivity. Qed.

Ltac absurd_order :=
  match goal with
  | H : F64.leb _ _ = true |- _ => now cbv in H
  | H : F64.ltb _ _ = true |- _ => now cbv in H
  | H : F64.is_finite _ = true |- _ => now cbv in H
  | H : F64.is_pos _ = true |- _ => now cbv in H
  end.

Lemma rounded_is_pos (m E : Z) :
  0 <= m <= 2 ^ prec -> is_pos (Grid.rounded prec emax false m E) = true.
Proof.
  intros Hm. unfold Grid.rounded, Grid.finish.
  assert (Hq : 0 < 2 ^ (prec - 1)) by (apply Z.pow_pos_nonneg; unfold prec; lia).
  destruct (m <? 2 ^ prec).
  - destruct m as [|p|p]; try lia; [reflexivity|].
    destruct (E <=? emax - prec); reflexivity.
  - destruct (2 ^ (prec - 1)) as [|p|p]; try lia.
    destruct (E + 1 <=? emax - prec); reflexivity.
Qed.

Lemma rounds_to_is_pos (D : Z) (T : Z -> Z) (x : float64) :
  rounds_to prec emax D T x -> is_pos x = true.
Proof.
  intros (E & m & lE & K0 & HE & Hm & Hc & _ & ->).
  pose proof (round_nearest_even_bounds m lE).
  apply rounded_is_pos. lia.
Qed.

Lemma sqrt_rounds_to_is_pos (R : Z -> Z) (x : float64) :
  sqrt_rounds_to prec emax R x -> is_pos x = true.
Proof.
  intros (E & m & lE & K0 & HE & Hm & Hc & _ & ->).
  pose proof (round_nearest_even_bounds m lE).
  apply rounded_is_pos. lia.
Qed.

Lemma is_pos_leb_zero (x : float64) : is_pos x = true -> leb zero x = true.
Proof. destruct x as [[|]|[|]| |[|] m e]; intros H; try discriminate H; reflexivity. Qed.



Lemma scaled_nonneg (x : float64) (K : Z) : low x <= K -> 0 <= scaled x K.
Proof.
  destruct x as [s|s| |[|] m e]; cbn [scaled low]; lia.
Qed.


(** *** The square *)

Lemma square_rounds (s : bool) (m : positive) (e : Z) :
  valid (S754_finite s m e) = true ->
  rounds_to prec emax 1 (fun K => Zpos m * Zpos m * 2 ^ (e + e + K))
    (square (S754_finite s m e)).
Proof.
  intros Hv. unfold square, mul. cbn [SFmul].
  replace (xorb s s) with false by (destruct s; reflexivity).
  now apply (mul_rounds prec emax prec_pos prec_lt_emax).
Qed.

Lemma square_is_pos (x : float64) :
  valid x = true -> is_nan x = false -> is_pos (square x) = true.
Proof.
  intros Hv Hn. destruct x as [[|]|[|]| |s m e]; try discriminate Hn;
    try reflexivity.
  exact (rounds_to_is_pos _ _ _ (square_rounds s m e Hv)).
Qed.

Lemma square_valid (x : float64) : valid x = true -> valid (square x) = true.
Proof.
  intros Hv. destruct x as [[|]|[|]| |s m e]; try reflexivity.
  exact (rounds_to_valid prec emax prec_pos _ _ _ (square_rounds s m e Hv)).
Qed.


(** *** The sum *)


Lemma add_is_pos (a b : float64) :
  valid a = true -> valid b = true ->
  is_pos a = true -> is_pos b = true -> is_pos (add a b) = true.
Proof.
  intros Hva Hvb Hpa Hpb.
  destruct a as [[|]|[|]| |[|] ma ea]; try discriminate Hpa;
    destruct b as [[|]|[|]| |[|] mb eb]; try discriminate Hpb; try reflexivity.
  exact (rounds_to_is_pos _ _ _ (add_rounds prec emax prec_pos ma mb ea eb)).
Qed.



(** *** The square root *)

Lemma sqrt_is_pos (x : float64) : is_pos x = true -> is_pos (sqrt x) = true.
Proof.
  intros Hp'. destruct x as [[|]|[|]| |[|] m e]; try discriminate Hp';
    try reflexivity.
  exact (sqrt_rounds_to_is_pos _ _ (sqrt_rounds prec emax prec_pos m e)).
Qed.



(** *** The quotient *)

Lemma div_is_pos (x s : float64) :
  is_pos x = true -> ltb zero s = true -> is_finite s = true ->
  is_pos (div x s) = true.
Proof.
  intros Hx Hs Hfs.
  destruct s as [[|]|[|]| |[|] ms es]; try absurd_order;
    destruct x as [[|]|[|]| |[|] mx ex]; try discriminate Hx; try reflexivity.
  unfold div.
  destruct (div_finite_spec prec emax prec_pos mx ms ex es)
    as (E & m & lE & _ & Hm & _ & _ & ->).
  pose proof (round_nearest_even_bounds m lE).
  apply rounded_is_pos. lia.
Qed.


Lemma div_antitone (x s1 s2 : float64) :
  valid s1 = true -> valid s2 = true -> is_pos x = true ->
  ltb zero s1 = true -> leb s1 s2 = true -> is_finite s2 = true ->
  leb (div x s2) (div x s1) = true.
Proof.
  intros Hv1 Hv2 Hx Hs1 Hs Hf2.
  destruct s1 as [[|]|[|]| |[|] m1 e1]; try absurd_order;
    destruct s2 as [[|]|[|]| |[|] m2 e2]; try absurd_order;
    destruct x as [[|]|[|]| |[|] mx ex]; try discriminate Hx; try reflexivity.
  now apply (div_finite_antitone prec emax prec_pos).
Qed.

(** *** The slant range *)

Lemma slant_is_pos (z r : float64) :
  valid z = true -> valid r = true -> is_nan z = false -> is_nan r = false ->
  is_pos (sqrt (add (square z) (square r))) = true.
Proof.
  intros Hvz Hvr Hz Hr.
  apply sqrt_is_pos, add_is_pos;
    auto using square_valid, square_is_pos.
Qed.

Lemma leb_not_nan (x y : float64) : leb x y = true -> is_nan y = false.
Proof. destruct y; try reflexivity. destruct x; discriminate. Qed.

Lemma leb_not_nan_l (x y : float64) : leb x y = true -> is_nan x = false.
Proof. destruct x; try reflexivity. discriminate. Qed.

(** X1. For a finite group speed above zero the travel-time expression
    yields neither a NaN nor a number below zero, whatever the depth and
    the distance: of either sign, infinite, or so large that the squares
    overflow, as long as neither is a NaN. *)
Theorem travel_time_nonneg (z r s : float64) :
  valid z = true -> valid r = true -> is_nan z = false -> is_nan r = false ->
  ltb zero s = true -> is_finite s = true ->
  leb zero (travel_time z r s) = true /\ is_nan (travel_time z r s) = false.
Proof.
  intros Hvz Hvr Hz Hr Hs Hfs.
  assert (H : leb zero (travel_time z r s) = true).
  { unfold travel_time.
    apply is_pos_leb_zero, div_is_pos; try assumption.
    now apply slant_is_pos. }
  split; [exact H|]. exact (leb_not_nan _ _ H).
Qed.

Lemma travel_time_nonneg_witness :
  valid (of_Z (-3)) = true /\ valid lit_0_5 = true
  /\ is_nan (of_Z (-3)) = false /\ is_nan lit_0_5 = false
  /\ ltb zero example_speed = true /\ is_finite example_speed = true
  /\ leb zero (travel_time (of_Z (-3)) lit_0_5 example_speed) = true
  /\ is_nan (travel_time (of_Z (-3)) lit_0_5 example_speed) = false.
Proof.
  do 6 (split; [reflexivity|]).
  apply (travel_time_nonneg (of_Z (-3)) lit_0_5 example_speed); reflexivity.
Defined.



(** X3. A greater group speed gives a travel time that is no greater: for
    finite speeds [0 < s1 <= s2] and a depth and a distance that are no
    NaN, [travel_time z r s2 <= travel_time z r s1]. *)
Theorem travel_time_speed_antitone (z r s1 s2 : float64) :
  valid z = true -> valid r = true -> valid s1 = true -> valid s2 = true ->
  is_nan z = false -> is_nan r = false ->
  ltb zero s1 = true -> leb s1 s2 = true -> is_finite s2 = true ->
  leb (travel_time z r s2) (travel_time z r s1) = true.
Proof.
  intros Hvz Hvr Hv1 Hv2 Hz Hr Hs1 Hs Hf2. unfold travel_time.
  apply div_antitone; try assumption. now apply slant_is_pos.
Qed.

Lemma travel_time_speed_antitone_witness :
  valid lit_0_1 = true /\ valid lit_0_5 = true
  /\ valid example_speed = true /\ valid (of_Z 1) = true
  /\ is_nan lit_0_1 = false /\ is_nan lit_0_5 = false
  /\ ltb zero example_speed = true /\ leb example_speed (of_Z 1) = true
  /\ is_finite (of_Z 1) = true
  /\ leb (travel_time lit_0_1 lit_0_5 (of_Z 1))
         (travel_time lit_0_1 lit_0_5 example_speed) = true.
Proof.
  do 9 (split; [reflexivity|]).
  apply (travel_time_speed_antitone lit_0_1 lit_0_5 example_speed (of_Z 1));
    reflexivity.
Defined.

End TravelTime.

Import F64 Py Locsat.
Local Open Scope string_scope.

(** ** Texts *)

Section Texts.

Lemma append_nil_l (s : string) : "" ++ s = s.
Proof. reflexivity. Qed.

Lemma append_cons (c : ascii) (a b : string) :
  String c a ++ b = String c (a ++ b).
Proof. reflexivity. Qed.

Lemma append_nil_r (s : string) : s ++ "" = s.
Proof.
  induction s as [|c s IH]; [reflexivity|].
  rewrite append_cons. now f_equal.
Qed.

Lemma append_assoc (a b c : string) : (a ++ b) ++ c = a ++ (b ++ c).
Proof.
  induction a as [|x a IH]; [reflexivity|].
  rewrite !append_cons. now f_equal.
Qed.

Lemma unlines_app (l1 l2 : list string) :
  unlines (l1 ++ l2)%list = unlines l1 ++ unlines l2.
Proof.
  induction l1 as [|l l1 IH]; [reflexivity|].
  cbn [app unlines]. now rewrite IH, !append_assoc.
Qed.

Lemma has_LF_app (a b : string) : has_LF (a ++ b) = has_LF a || has_LF b.
Proof.
  induction a as [|c a IH]; [reflexivity|].
  rewrite append_cons. cbn [has_LF]. now rewrite IH, orb_assoc.
Qed.



Lemma has_LF_repeat_char (c : ascii) (n : nat) :
  is_LF c = false -> has_LF (repeat_char c n) = false.
Proof.
  intros Hc. induction n as [|n IH]; [reflexivity|].
  cbn [repeat_char has_LF]. now rewrite Hc, IH.
Qed.

Lemma has_LF_uint (d : Decimal.uint) :
  has_LF (NilEmpty.string_of_uint d) = false.
Proof. induction d; cbn [NilEmpty.string_of_uint has_LF]; auto. Qed.

Lemma has_LF_str_int (n : Z) : has_LF (str_int n) = false.
Proof.
  unfold str_int, NilZero.string_of_uint.
  destruct (N.to_uint (Z.to_N n)) eqn:E; try reflexivity;
    rewrite <- E; apply has_LF_uint.
Qed.

(** [format_f] on some values: ties go to the even digit, the sign of
    [-0.0] shows, and the field widens for a long number. *)
Example format_f_examples :
  map (format_f 8 2)
    [ S754_finite false 5 (-3); S754_finite false 3 (-3); neg_zero;
      S754_finite true 1 (-10); of_Z 123456789; nan; neg_infinity ] =
  [ "    0.62"; "    0.38"; "   -0.00"; "   -0.00"; "123456789.00";
    "     nan"; "    -inf" ].
Proof. vm_compute. reflexivity. Qed.

(** A formatted float holds no line feed. *)
Lemma has_LF_format_f (width p : nat) (x : float64) :
  has_LF (format_f width p x) = false.
Proof.
  unfold format_f, rjust. rewrite has_LF_app, has_LF_repeat_char by reflexivity.
  cbn [orb].
  destruct x as [sx|sx| |sx m e].
  - rewrite has_LF_app. destruct sx, p; cbn [sign_str has_LF orb];
      try reflexivity;
      rewrite has_LF_app, has_LF_repeat_char by reflexivity; reflexivity.
  - destruct sx; reflexivity.
  - reflexivity.
  - rewrite has_LF_app.
    assert (Hs : has_LF (sign_str sx) = false) by (destruct sx; reflexivity).
    rewrite Hs. cbn [orb]. unfold fixed_digits, zfill.
    destruct p; [apply has_LF_str_int|].
    rewrite !has_LF_app, has_LF_str_int, has_LF_repeat_char, has_LF_str_int
      by reflexivity.
    reflexivity.
Qed.

End Texts.

(** ** The writing loops *)

Section Loops.

(** The loops only ever append to the file. *)
Lemma write_samples_buf (n : nat) (xs : list float64) :
  forall (i : nat) (f : file),
    write_samples n i xs f = f ++ write_samples n i xs open_w.
Proof.
  induction xs as [|x xs IH]; intros i f; cbn [write_samples].
  - unfold open_w. now rewrite append_nil_r.
  - rewrite IH. symmetry. rewrite IH. unfold write, open_w.
    rewrite append_nil_l.
    destruct (Nat.eqb (Nat.modulo i 10) 0 || Nat.eqb i n)%bool;
      now rewrite ?append_assoc.
Qed.

Lemma write_travel_times_eq (z s : float64) (rs : list float64) :
  forall f : file,
    write_travel_times z s rs f =
    f ++ unlines (map (fun r => format_f 12 3 (travel_time z r s)) rs).
Proof.
  induction rs as [|r rs IH]; intros f; cbn [write_travel_times map unlines].
  - now rewrite append_nil_r.
  - rewrite IH. unfold write. now rewrite !append_assoc.
Qed.

Lemma write_blocks_eq (s : float64) (rs zs : list float64) :
  forall f : file,
    write_blocks s zs rs f =
    f ++ unlines (concat (map (block_lines s rs) zs)).
Proof.
  induction zs as [|z zs IH]; intros f.
  - cbn. now rewrite append_nil_r.
  - cbn [write_blocks map concat]. rewrite IH, write_travel_times_eq.
    unfold block_lines at 2. rewrite unlines_app. cbn [unlines app].
    unfold write. now rewrite !append_assoc.
Qed.

Lemma write_table_eq (zs ds rs : list float64) (phase : string)
    (s : float64) :
  write_table zs ds rs phase s open_w =
  ("n # " ++ phase ++ " travel-time tables" ++ LF) ++
  (str_int (Z.of_nat (length zs)) ++ " # number of depth samples" ++ LF) ++
  write_samples (length zs) 1 zs open_w ++
  (str_int (Z.of_nat (length ds)) ++ " # number of distance samples" ++ LF) ++
  write_samples (length ds) 1 ds open_w ++
  unlines (concat (map (block_lines s rs) zs)).
Proof.
  unfold write_table. rewrite write_blocks_eq.
  rewrite (write_samples_buf (length ds)), (write_samples_buf (length zs)).
  unfold write, open_w. rewrite append_nil_l. now rewrite !append_assoc.
Qed.

End Loops.

(** ** The table file of the script *)

Section TableFile.

Lemma depth_samples_text :
  write_samples (length z_samples) 1 z_samples open_w = "    0.00" ++ LF.
Proof. vm_compute. reflexivity. Qed.

Lemma distance_samples_text :
  write_samples (length d_samples) 1 d_samples open_w =
  "    0.00    0.10    0.50    1.00    5.00   10.00   15.00   20.00   25.00   30.00" ++ LF.
Proof. vm_compute. reflexivity. Qed.

Lemma table_text_lines (phase : string) (s : float64) :
  table_text phase s =
  unlines (preamble_lines phase ++
           concat (map (block_lines s r_samples) z_samples))%list.
Proof.
  unfold table_text. rewrite write_table_eq.
  rewrite depth_samples_text, distance_samples_text.
  rewrite unlines_app. unfold preamble_lines, header_line.
  cbn [unlines length z_samples d_samples Z.of_nat].
  change (str_int (Z.of_nat 1)) with "1".
  change (str_int (Z.of_nat 10)) with "10".
  now rewrite !append_assoc, ?append_nil_r.
Qed.

(** The slant range at depth 0: squaring, adding [0.0**2] and taking the
    root give each distance sample back, bit for bit. *)
Lemma slant_range_surface :
  map (fun r => sqrt (add (square zero) (square r))) r_samples = r_samples.
Proof. vm_compute. reflexivity. Qed.

End TableFile.

(** ** Properties of the generated table *)

Section Claims.

Variable float_str : float64 -> string.

Lemma depth_values_text : join (map (format_f 8 2) z_samples) = "    0.00".
Proof. vm_compute. reflexivity. Qed.

Lemma distance_values_text :
  join (map (format_f 8 2) d_samples) =
  "    0.00    0.10    0.50    1.00    5.00   10.00   15.00   20.00   25.00   30.00".
Proof. vm_compute. reflexivity. Qed.

(** The file of the script, line by line. *)
Lemma table_text_layout (phase : string) (s : float64) :
  table_text phase s =
    unlines
      (app
         [ "n # " ++ phase ++ " travel-time tables";
           "1 # number of depth samples";
           join (map (format_f 8 2) z_samples);
           "10 # number of distance samples";
           join (map (format_f 8 2) d_samples);
           "# Travel-time/amplitude for z = " ++ format_f 8 2 zero ]
         (map (fun r => format_f 12 3 (travel_time zero r s)) r_samples)).
Proof.
  rewrite depth_values_text, distance_values_text, table_text_lines.
  reflexivity.
Qed.

(** C1. Every travel time written into the table is
    [sqrt(z^2 + r^2) / s] for its depth sample [z] and kilometre distance
    [r]: the blocks of the file are the formatted values of that
    expression, row by row.  The sample at index 1 is the 0.1-degree one,
    and at the only depth, [0.0], its travel time is exactly
    [degrees2kilometers(0.1) / s], whatever the speed [s]. *)
Theorem travel_time_formula (phase : string) (s : float64) :
  table_text phase s =
    unlines
      (app (preamble_lines phase)
         (concat
            (map
               (fun z =>
                  ("# Travel-time/amplitude for z = " ++ format_f 8 2 z)
                    :: map
                         (fun r =>
                            format_f 12 3
                              (div (sqrt (add (mul z z) (mul r r))) s))
                         r_samples)
               z_samples)))
  /\ z_samples = [zero]
  /\ r_samples !! 1%nat = Some (degrees2kilometers lit_0_1)
  /\ travel_time zero (degrees2kilometers lit_0_1) s =
     div (degrees2kilometers lit_0_1) s.
Proof.
  split; [apply table_text_lines|].
  split; [reflexivity|].
  split; [reflexivity|].
  unfold travel_time.
  assert (H : sqrt (add (square zero) (square (degrees2kilometers lit_0_1)))
              = degrees2kilometers lit_0_1) by (vm_compute; reflexivity).
  now rewrite H.
Qed.

(** C2. The layout of the file, for every phase and group speed: the
    header line with the phase, the depth count, the depth values in
    [%8.2f], the distance count, the distance values in [%8.2f] (the
    degrees, which differ from the kilometres), and for the one depth
    sample the block header followed by one [%12.3f] travel time per
    line and nothing else on the line (a formatted value holds no line
    feed). *)
Theorem file_layout (phase : string) (s : float64) :
  table_text phase s =
    unlines
      (app
         [ "n # " ++ phase ++ " travel-time tables";
           "1 # number of depth samples";
           join (map (format_f 8 2) z_samples);
           "10 # number of distance samples";
           join (map (format_f 8 2) d_samples);
           "# Travel-time/amplitude for z = " ++ format_f 8 2 zero ]
         (map (fun r => format_f 12 3 (travel_time zero r s)) r_samples))
  /\ join (map (format_f 8 2) z_samples) = "    0.00"
  /\ join (map (format_f 8 2) d_samples) =
     "    0.00    0.10    0.50    1.00    5.00   10.00   15.00   20.00   25.00   30.00"
  /\ join (map (format_f 8 2) r_samples) =
     "    0.00   11.12   55.60  111.19  555.97 1111.95 1667.92 2223.90 2779.87 3335.85"
  /\ forall r : float64, has_LF (format_f 12 3 (travel_time zero r s)) = false.
Proof.
  split; [apply table_text_layout|].
  split; [apply depth_values_text|].
  split; [apply distance_values_text|].
  split; [vm_compute; reflexivity|].
  intros r. apply has_LF_format_f.
Qed.

(** The scenario of the spec: phase [Is] at the group speed [0.34]. *)
Example table_Is :
  table_text "Is" example_speed =
  unlines
    [ "n # Is travel-time tables";
      "1 # number of depth samples";
      "    0.00";
      "10 # number of distance samples";
      "    0.00    0.10    0.50    1.00    5.00   10.00   15.00   20.00   25.00   30.00";
      "# Travel-time/amplitude for z =     0.00";
      "       0.000";
      "      32.704";
      "     163.522";
      "     327.044";
      "    1635.220";
      "    3270.439";
      "    4905.659";
      "    6540.878";
      "    8176.098";
      "    9811.317" ].
Proof. vm_compute. reflexivity. Qed.

(** C3. The ten distance samples, in degrees, and their conversion:
    [r_samples] holds, at each index, the kilometres of the degree sample
    at that index, [degrees * (pi/180) * 6371.0]. *)
Theorem distances_converted :
  d_samples =
    [ zero; div (of_Z 1) (of_Z 10); div (of_Z 1) (of_Z 2); of_Z 1; of_Z 5;
      of_Z 10; of_Z 15; of_Z 20; of_Z 25; of_Z 30 ]
  /\ length d_samples = 10%nat
  /\ length r_samples = length d_samples
  /\ forall i : nat,
       r_samples !! i =
       (fun degrees => mul (mul degrees (div pi (of_Z 180))) (of_Z 6371))
         <$> d_samples !! i.
Proof.
  split; [vm_compute; reflexivity|].
  split; [reflexivity|].
  split; [unfold r_samples; now rewrite length_map|].
  intros i. unfold r_samples. now rewrite list_lookup_fmap.
Qed.

(** C4. The counts the file declares are the counts of what it holds:
    the depth count is the number of depth values written (1), the
    distance count is the number of travel-time lines of the block (10),
    and the degree and kilometre sequences have the same length, index
    by index. *)
Theorem counts_consistent (phase : string) (s : float64) :
  let depth_values := map (format_f 8 2) z_samples in
  let distance_values := map (format_f 8 2) d_samples in
  let times := map (fun r => format_f 12 3 (travel_time zero r s)) r_samples in
  table_text phase s =
    unlines
      (app
         [ header_line phase;
           str_int (Z.of_nat (length depth_values)) ++ " # number of depth samples";
           join depth_values;
           str_int (Z.of_nat (length times)) ++ " # number of distance samples";
           join distance_values;
           "# Travel-time/amplitude for z = " ++ format_f 8 2 zero ]
         times)
  /\ length depth_values = 1%nat
  /\ length times = 10%nat
  /\ length distance_values = length times
  /\ length d_samples = length r_samples
  /\ forall i : nat, r_samples !! i = degrees2kilometers <$> d_samples !! i.
Proof.
  intros depth_values distance_values times.
  assert (Hn : length times = 10%nat) by (unfold times; now rewrite length_map).
  split.
  - rewrite Hn. subst depth_values distance_values times.
    rewrite table_text_layout. reflexivity.
  - split; [reflexivity|]. split; [exact Hn|].
    split; [now rewrite Hn|]. split; [reflexivity|].
    intros i. unfold r_samples. now rewrite list_lookup_fmap.
Qed.

Lemma generated_file (phase : string) (s : float64) (verbose : bool)
    (w : world) :
  files (generate_travel_time_table float_str phase s verbose w) =
  <[file_name phase := table_text phase s]> (files w).
Proof. reflexivity. Qed.





(** *** Sign and order of the travel times *)

Lemma ascending_lookup (xs : list float64) :
  ascending xs = true ->
  forall (i j : nat) (a b : float64),
    (i <= j)%nat -> xs !! i = Some a -> xs !! j = Some b -> leb a b = true.
Proof.
  induction xs as [|x xs IH]; intros Hasc i j a b Hij Ha Hb.
  - discriminate Ha.
  - cbn [ascending] in Hasc. apply andb_true_iff in Hasc as [Hx Hxs].
    destruct i as [|i].
    + injection Ha as <-.
      rewrite forallb_forall in Hx. apply Hx.
      apply list_elem_of_In. now apply list_elem_of_lookup_2 with j.
    + destruct j as [|j]; [lia|].
      apply (IH Hxs i j); [lia|exact Ha|exact Hb].
Qed.

(** The kilometre distances are valid, finite, non-negative and in
    ascending order. *)
Lemma r_samples_ascending : ascending r_samples = true.
Proof. vm_compute. reflexivity. Qed.

Lemma r_samples_regular :
  forallb (fun r => valid r && leb zero r && is_finite r) r_samples = true.
Proof. vm_compute. reflexivity. Qed.

Lemma r_samples_lookup (j : nat) (r : float64) :
  r_samples !! j = Some r ->
  valid r = true /\ leb zero r = true /\ is_finite r = true.
Proof.
  intros Hj. pose proof r_samples_regular as H.
  rewrite forallb_forall in H.
  specialize (H r). rewrite !andb_true_iff in H.
  destruct H as [[? ?] ?]; [|now repeat split].
  apply list_elem_of_In. now apply list_elem_of_lookup_2 with j.
Qed.

(** At depth 0 the table is the row of the distances over the speed. *)
Lemma surface_row (s : float64) :
  travel_time_table z_samples r_samples s =
  [map (fun r => div r s) r_samples].
Proof.
  transitivity
    [map (fun c => div c s)
       (map (fun r => sqrt (add (square zero) (square r))) r_samples)].
  - rewrite map_map. reflexivity.
  - now rewrite slant_range_surface.
Qed.

Lemma surface_cell (s : float64) (i j : nat) (c : float64) :
  cell (travel_time_table z_samples r_samples s) i j = Some c ->
  exists r : float64, r_samples !! j = Some r /\ c = div r s.
Proof.
  rewrite surface_row. unfold cell. destruct i as [|i].
  - change ([map (fun r => div r s) r_samples] !! 0%nat)
      with (Some (map (fun r => div r s) r_samples)).
    cbv beta iota. rewrite list_lookup_fmap. intros H.
    apply fmap_Some in H as (r & Hr & ->). now exists r.
  - change ([map (fun r => div r s) r_samples] !! S i)
      with (@nil (list float64) !! i).
    rewrite lookup_nil. discriminate.
Qed.

(** C7, as the code has it: for a group speed [s > 0] every cell of the
    table is non-negative (never NaN, never below zero). *)
Theorem positive_speed_nonneg (s : float64) (i j : nat) (c : float64) :
  ltb zero s = true ->
  cell (travel_time_table z_samples r_samples s) i j = Some c ->
  leb zero c = true.
Proof.
  intros Hs Hc. apply surface_cell in Hc as (r & Hr & ->).
  destruct (r_samples_lookup j r Hr) as (_ & Hr0 & Hrf).
  now apply div_nonneg.
Qed.

Lemma positive_speed_nonneg_witness :
  ltb zero example_speed = true
  /\ cell (travel_time_table z_samples r_samples example_speed) 0 1 =
       Some (div (degrees2kilometers lit_0_1) example_speed)
  /\ leb zero (div (degrees2kilometers lit_0_1) example_speed) = true.
Proof.
  split; [reflexivity|]. split; [vm_compute; reflexivity|].
  apply (positive_speed_nonneg example_speed 0 1); [reflexivity|].
  vm_compute. reflexivity.
Defined.

(** C7, as stated, fails: the program accepts the group speed [-1.0], and
    the cell of the 0.1-degree distance is then negative. *)
Lemma negative_speed_negative_cell :
  valid (of_Z (-1)) = true
  /\ cell (travel_time_table z_samples r_samples (of_Z (-1))) 0 1 =
       Some (S754_finite true 6259717877524055 (-49))
  /\ leb zero (S754_finite true 6259717877524055 (-49)) = false.
Proof. repeat split; vm_compute; reflexivity. Qed.

(** C8, as the code has it: for a group speed [s > 0], along a row of the
    table the travel time does not decrease as the distance index
    grows. *)
Theorem positive_speed_nondecreasing (s : float64) (i j1 j2 : nat)
    (c1 c2 : float64) :
  ltb zero s = true ->
  (j1 <= j2)%nat ->
  cell (travel_time_table z_samples r_samples s) i j1 = Some c1 ->
  cell (travel_time_table z_samples r_samples s) i j2 = Some c2 ->
  leb c1 c2 = true.
Proof.
  intros Hs Hj H1 H2.
  apply surface_cell in H1 as (r1 & Hr1 & ->).
  apply surface_cell in H2 as (r2 & Hr2 & ->).
  destruct (r_samples_lookup j1 r1 Hr1) as (Hv1 & Hp1 & _).
  destruct (r_samples_lookup j2 r2 Hr2) as (Hv2 & _ & Hf2).
  apply div_mono; try assumption.
  exact (ascending_lookup r_samples r_samples_ascending j1 j2 r1 r2 Hj Hr1 Hr2).
Qed.

Lemma positive_speed_nondecreasing_witness :
  ltb zero example_speed = true
  /\ (1 <= 2)%nat
  /\ cell (travel_time_table z_samples r_samples example_speed) 0 1 =
       Some (div (degrees2kilometers lit_0_1) example_speed)
  /\ cell (travel_time_table z_samples r_samples example_speed) 0 2 =
       Some (div (degrees2kilometers lit_0_5) example_speed)
  /\ leb (div (degrees2kilometers lit_0_1) example_speed)
         (div (degrees2kilometers lit_0_5) example_speed) = true.
Proof.
  split; [reflexivity|]. split; [lia|].
  split; [vm_compute; reflexivity|]. split; [vm_compute; reflexivity|].
  apply (positive_speed_nondecreasing example_speed 0 1 2);
    [reflexivity|lia|vm_compute; reflexivity|vm_compute; reflexivity].
Defined.

(** C8, as stated, fails: at the group speed [-1.0] the travel time of the
    0.1-degree distance is above the one of the 0.5-degree distance. *)
Lemma negative_speed_decreasing :
  valid (of_Z (-1)) = true
  /\ cell (travel_time_table z_samples r_samples (of_Z (-1))) 0 1 =
       Some (S754_finite true 6259717877524055 (-49))
  /\ cell (travel_time_table z_samples r_samples (of_Z (-1))) 0 2 =
       Some (S754_finite true 7824647346905068 (-47))
  /\ leb (S754_finite true 6259717877524055 (-49))
         (S754_finite true 7824647346905068 (-47)) = false.
Proof. repeat split; vm_compute; reflexivity. Qed.

End Claims.

(** ** Rows of samples *)

Section Rows.

Lemma join_app (l1 l2 : list string) : join (l1 ++ l2)%list = join l1 ++ join l2.
Proof.
  induction l1 as [|l l1 IH]; [reflexivity|].
  cbn [app join]. now rewrite IH, append_assoc.
Qed.

Lemma sample_line_app (a b : list float64) :
  sample_line (a ++ b) = sample_line a ++ sample_line b.
Proof. unfold sample_line. now rewrite map_app, join_app. Qed.

(** Samples that are neither a tenth one nor the last one follow each other
    on the line. *)
Lemma write_samples_run (n : nat) (a b : list float64) :
  forall (i : nat) (f : file),
    (forall p : nat, (p < length a)%nat ->
       ((i + p) mod 10 <> 0 /\ i + p <> n)%nat) ->
    write_samples n i (a ++ b) f =
    write_samples n (i + length a) b (f ++ sample_line a).
Proof.
  induction a as [|x a IH]; intros i f Hp.
  - cbn [app length]. unfold sample_line. cbn [map join].
    now rewrite append_nil_r, Nat.add_0_r.
  - cbn [app write_samples].
    destruct (Hp 0%nat ltac:(cbn; lia)) as [H1 H2]. rewrite Nat.add_0_r in H1, H2.
    destruct (Nat.eqb_spec (i mod 10) 0) as [E|_]; [contradiction|].
    destruct (Nat.eqb_spec i n) as [E|_]; [contradiction|].
    cbn [orb]. rewrite IH.
    + unfold write. rewrite append_assoc. cbn [length].
      replace (S i + length a)%nat with (i + S (length a))%nat by lia.
      reflexivity.
    + intros p Hlt.
      replace (S i + p)%nat with (i + S p)%nat by lia.
      apply Hp. cbn [length]. lia.
Qed.

(** The sample that ends a row is followed by a line feed. *)
Lemma write_samples_row (n i : nat) (row b : list float64) (f : file) :
  row <> [] ->
  (forall p : nat, (S p < length row)%nat ->
     ((i + p) mod 10 <> 0 /\ i + p <> n)%nat) ->
  ((i + length row) mod 10 = 1 \/ i + length row = S n)%nat ->
  write_samples n i (row ++ b) f =
  write_samples n (i + length row) b (f ++ sample_line row ++ LF).
Proof.
  intros Hne Hp Hlast.
  destruct (exists_last Hne) as (a & x & ->).
  rewrite length_app in *. cbn [length] in *.
  rewrite <- app_assoc. cbn [app].
  rewrite write_samples_run by (intros p Hlt; apply Hp; lia).
  cbn [write_samples].
  assert (Hnl : (Nat.eqb ((i + length a) mod 10) 0
                 || Nat.eqb (i + length a) n)%bool = true).
  { apply orb_true_iff. destruct Hlast as [Hm|Hn].
    - left. apply Nat.eqb_eq.
      replace (i + (length a + 1))%nat with (S (i + length a))%nat in Hm by lia.
      pose proof (Nat.div_mod_eq (i + length a) 10).
      pose proof (Nat.div_mod_eq (S (i + length a)) 10).
      pose proof (Nat.mod_upper_bound (i + length a) 10 ltac:(lia)).
      lia.
    - right. apply Nat.eqb_eq. lia. }
  rewrite Hnl. unfold write. rewrite sample_line_app.
  unfold sample_line at 3. cbn [map join].
  rewrite append_nil_r, !append_assoc.
  replace (S (i + length a)) with (i + (length a + 1))%nat by lia.
  reflexivity.
Qed.

Lemma chunks_fuel (fuel1 : nat) :
  forall (fuel2 : nat) (xs : list float64),
    (length xs <= fuel1)%nat -> (length xs <= fuel2)%nat ->
    chunks fuel1 xs = chunks fuel2 xs.
Proof.
  induction fuel1 as [|fuel1 IH]; intros fuel2 xs H1 H2.
  - destruct xs; [|cbn in H1; lia]. destruct fuel2; reflexivity.
  - destruct xs as [|x xs]; [destruct fuel2; reflexivity|].
    destruct fuel2 as [|fuel2]; [cbn in H2; lia|].
    cbn [chunks]. f_equal.
    apply IH; rewrite length_drop; cbn [length] in *; lia.
Qed.

Lemma rows_cons (x : float64) (xs : list float64) :
  rows (x :: xs) = take 10 (x :: xs) :: rows (drop 10 (x :: xs)).
Proof.
  unfold rows. cbn [length chunks]. f_equal.
  apply chunks_fuel; rewrite ?length_drop; cbn [length]; lia.
Qed.

(** Induction on a list, ten elements at a time. *)
Lemma rows_ind (P : list float64 -> Prop) :
  P [] ->
  (forall x xs, P (drop 10 (x :: xs)) -> P (x :: xs)) ->
  forall xs, P xs.
Proof.
  intros Hnil Hcons xs.
  remember (length xs) as k eqn:Hk.
  revert xs Hk. induction k as [k IH] using lt_wf_ind. intros xs Hk.
  destruct xs as [|x xs]; [exact Hnil|].
  apply Hcons. apply (IH (length (drop 10 (x :: xs)))); [|reflexivity].
  rewrite length_drop. subst k. cbn [length]. lia.
Qed.

Lemma write_samples_rows_from (xs : list float64) :
  forall (n i : nat) (f : file),
    (i mod 10 = 1)%nat -> (i + length xs = S n)%nat ->
    write_samples n i xs f = f ++ unlines (map sample_line (rows xs)).
Proof.
  induction xs as [|x xs IH] using rows_ind; intros n i f Hi Hn.
  - cbn. now rewrite append_nil_r.
  - rewrite rows_cons. cbn [map unlines].
    set (ys := x :: xs) in *.
    assert (Hlen : (0 < length ys)%nat) by (cbn; lia).
    assert (Hne : take 10 ys <> []) by (subst ys; discriminate).
    rewrite <- (take_drop 10 ys) at 1.
    pose proof (Nat.div_mod_eq i 10) as Hdm.
    assert (Htk : length (take 10 ys) = Nat.min 10 (length ys))
      by apply length_take.
    assert (Hrun : forall p : nat, (S p < length (take 10 ys))%nat ->
              ((i + p) mod 10 <> 0 /\ i + p <> n)%nat).
    { intros p Hlt. split; [|lia].
      pose proof (Nat.div_mod_eq (i + p) 10).
      pose proof (Nat.mod_upper_bound (i + p) 10 ltac:(lia)).
      pose proof (Nat.mod_upper_bound i 10 ltac:(lia)).
      lia. }
    destruct (Nat.le_gt_cases (length ys) 10) as [Hle|Hgt].
    + (* the last row *)
      rewrite (drop_ge ys 10) by exact Hle.
      rewrite write_samples_row; [|exact Hne|exact Hrun|right; lia].
      cbn. now rewrite !append_assoc, ?append_nil_r.
    + rewrite write_samples_row; [|exact Hne|exact Hrun|].
      * rewrite IH; [now rewrite !append_assoc| |].
        -- rewrite Htk, Nat.min_l by lia.
           pose proof (Nat.div_mod_eq (i + 10) 10).
           pose proof (Nat.mod_upper_bound (i + 10) 10 ltac:(lia)).
           pose proof (Nat.mod_upper_bound i 10 ltac:(lia)).
           lia.
        -- rewrite length_drop. lia.
      * left. rewrite Htk, Nat.min_l by lia.
        pose proof (Nat.div_mod_eq (i + 10) 10).
        pose proof (Nat.mod_upper_bound (i + 10) 10 ltac:(lia)).
        pose proof (Nat.mod_upper_bound i 10 ltac:(lia)).
        lia.
Qed.

Lemma rows_concat (xs : list float64) : concat (rows xs) = xs.
Proof.
  induction xs as [|x xs IH] using rows_ind; [reflexivity|].
  rewrite rows_cons. cbn [concat]. rewrite IH. apply take_drop.
Qed.

Lemma rows_bounded (xs : list float64) :
  Forall (fun row => (0 < length row <= 10)%nat) (rows xs).
Proof.
  induction xs as [|x xs IH] using rows_ind; [constructor|].
  rewrite rows_cons. constructor; [|exact IH].
  rewrite length_take. cbn [length]. lia.
Qed.

Lemma rows_length (xs : list float64) :
  length (rows xs) = ((length xs + 9) / 10)%nat.
Proof.
  induction xs as [|x xs IH] using rows_ind; [reflexivity|].
  rewrite rows_cons. cbn [length] in *. rewrite IH, length_drop.
  cbn [length].
  destruct (Nat.le_gt_cases (S (length xs)) 10) as [Hle|Hgt].
  - replace (S (length xs) - 10)%nat with 0%nat by lia.
    change ((0 + 9) / 10)%nat with 0%nat.
    apply Nat.div_unique with (r := (length xs)%nat); lia.
  - replace (S (length xs) + 9)%nat
      with ((S (length xs) - 10 + 9) + 1 * 10)%nat by lia.
    rewrite Nat.div_add by lia. lia.
Qed.

(** All rows but the last hold ten samples. *)
Lemma rows_full (xs : list float64) (k : nat) (row : list float64) :
  rows xs !! k = Some row -> (S k < length (rows xs))%nat ->
  length row = 10%nat.
Proof.
  revert k row.
  induction xs as [|x xs IH] using rows_ind; intros k row Hk Hlt.
  - discriminate Hk.
  - rewrite rows_cons in Hk, Hlt. destruct k as [|k].
    + injection Hk as <-. cbn [length] in Hlt.
      change (length (take 10 (x :: xs)) = 10%nat).
      rewrite length_take.
      destruct (drop 10 (x :: xs)) as [|y ys] eqn:Hd; [cbn in Hlt; lia|].
      assert (H : length (drop 10 (x :: xs)) = S (length ys)) by now rewrite Hd.
      rewrite length_drop in H. lia.
    + cbn [length] in Hlt. apply (IH k row); [exact Hk|lia].
Qed.

(** X7. The loop over a sample array writes the values ten to a line, in
    order: every line but the last holds ten values, the last one the
    rest, each line ends in one line feed (also when the length is a
    multiple of ten), and an empty array writes nothing. *)
Theorem write_samples_rows (xs : list float64) (f : file) :
  write_samples (length xs) 1 xs f = f ++ unlines (map sample_line (rows xs))
  /\ concat (rows xs) = xs
  /\ Forall (fun row => (0 < length row <= 10)%nat) (rows xs)
  /\ (forall (k : nat) (row : list float64),
        rows xs !! k = Some row -> (S k < length (rows xs))%nat ->
        length row = 10%nat)
  /\ length (rows xs) = ((length xs + 9) / 10)%nat.
Proof.
  split; [apply write_samples_rows_from; [reflexivity|lia]|].
  split; [apply rows_concat|]. split; [apply rows_bounded|].
  split; [apply rows_full|apply rows_length].
Qed.

(** X8. The layout of the file for any sample arrays in the place of the
    module-level ones: the header, the depth count and the depth rows, the
    distance count and the rows of [ds], then for each depth a header line
    and one line per element of [rs]; and the number of lines this
    makes. *)
Theorem write_table_layout (zs ds rs : list float64) (phase : string)
    (s : float64) :
  write_table zs ds rs phase s open_w = unlines (table_lines zs ds rs phase s)
  /\ length (table_lines zs ds rs phase s) =
     (3 + (length zs + 9) / 10 + (length ds + 9) / 10
      + length zs * (1 + length rs))%nat.
Proof.
  split.
  - rewrite write_table_eq. unfold table_lines.
    rewrite !(write_samples_rows_from _ _ 1 open_w) by (reflexivity || lia).
    unfold open_w. rewrite !append_nil_l.
    rewrite !unlines_app. cbn [unlines]. unfold header_line.
    now rewrite !append_assoc, ?append_nil_r.
  - unfold table_lines. rewrite !length_app, !length_map, !rows_length.
    cbn [length].
    assert (H : length (concat (map (block_lines s rs) zs)) =
                (length zs * (1 + length rs))%nat).
    { induction zs as [|z zs IH]; [reflexivity|].
      cbn [map concat]. rewrite length_app, IH. unfold block_lines.
      cbn [length]. rewrite length_map. lia. }
    rewrite H. lia.
Qed.

End Rows.

(** X6. A NaN for the depth, the distance or the group speed makes the
    travel time a NaN, which goes into the file as [nan]. *)
Theorem travel_time_nan (z r s : float64) :
  (is_nan z || is_nan r || is_nan s)%bool = true ->
  travel_time z r s = nan
  /\ format_f 12 3 (travel_time z r s) = "         nan".
Proof.
  intros H.
  assert (E : travel_time z r s = nan).
  { unfold travel_time.
    apply orb_true_iff in H as [H|H]; [apply orb_true_iff in H as [H|H]|].
    - destruct z; try discriminate H. reflexivity.
    - destruct r; try discriminate H. destruct (square z); reflexivity.
    - destruct s; try discriminate H.
      destruct (sqrt (add (square z) (square r))); reflexivity. }
  split; [exact E|]. rewrite E. reflexivity.
Qed.

Lemma travel_time_nan_witness :
  (is_nan zero || is_nan nan || is_nan example_speed)%bool = true
  /\ travel_time zero nan example_speed = nan
  /\ format_f 12 3 (travel_time zero nan example_speed) = "         nan".
Proof.
  split; [reflexivity|].
  apply (travel_time_nan zero nan example_speed). reflexivity.
Defined.

(** ** Runs of the generator *)

Section Runs.

Variable float_str : float64 -> string.





(** X11. The file is opened for writing, not appending: of two runs for
    the same phase the first leaves no trace in the files, whatever its
    group speed was. *)
Theorem last_run_wins (phase : string) (s t : float64) (v v' : bool)
    (w : world) :
  files (generate_travel_time_table float_str phase t v'
           (generate_travel_time_table float_str phase s v w)) =
  files (generate_travel_time_table float_str phase t v' w).
Proof. rewrite !generated_file. apply insert_insert_eq. Qed.


End Runs.


